(** * CSI volume plugin utilities (pkg/volume/csi/csi_util.go)

    A shallow embedding of the helper functions of the CSI volume plugin
    and the properties they satisfy.  Go strings are byte strings and are
    modelled by [string]; Go maps are reference objects and are modelled by
    locations into a store of [gmap]s, so that in-place updates and aliasing
    are visible; a run-time panic is an explicit outcome. *)

From Stdlib Require Import ZArith Ascii String List Lia.
From stdpp Require Import base option list gmap strings fin_maps sorting.

Local Open Scope string_scope.

(* ********************************************************************* *)
(** * Part I: the program *)
(* ********************************************************************* *)

(* ===================================================================== *)
(** ** Go byte strings *)
(* ===================================================================== *)

Module GoStrings.

(** [strings.Contains(s, sub)]. *)
Fixpoint Contains (s sub : string) : bool :=
  String.prefix sub s ||
  match s with
  | EmptyString => false
  | String _ s' => Contains s' sub
  end.

(** U+FFFD, the replacement rune, in UTF-8. *)
Definition RuneError : string :=
  String (ascii_of_nat 239) (String (ascii_of_nat 191) (String (ascii_of_nat 189) "")).

(** [strings.ToUpper] on a one-byte string, the only use the plugin makes
    of it: an ASCII lower-case letter is shifted to upper case and any other
    ASCII byte is kept.  The names of descriptors are ASCII identifiers; a
    lone byte >= 0x80 is no character at all, and is taken to come out of
    the case mapping as U+FFFD. *)
Definition ToUpper (c : ascii) : string :=
  let n := nat_of_ascii c in
  if (97 <=? n)%nat && (n <=? 122)%nat then String (ascii_of_nat (n - 32)) ""
  else if (128 <=? n)%nat then RuneError
  else String c "".

(** A Go identifier is exported when its first character is an upper-case
    letter.  The names looked up below start with the result of [ToUpper],
    that is with an ASCII byte or with U+FFFD, so testing for an ASCII
    capital is exact on them. *)
Definition IsExported (name : string) : bool :=
  match name with
  | EmptyString => false
  | String c _ => let n := nat_of_ascii c in (65 <=? n)%nat && (n <=? 90)%nat
  end.

(** The order of the keys of a map when they are sorted: Go compares strings
    byte by byte. *)
Definition key_le (a b : string * string) : Prop := String.leb a.1 b.1 = true.

Global Instance key_le_dec a b : Decision (key_le a b).
Proof. unfold key_le. apply _. Defined.

End GoStrings.

(* ===================================================================== *)
(** ** Message schemas: protobuf descriptors *)
(* ===================================================================== *)

Module Descriptor.

(** [descriptor.FieldOptions], reduced to the one extension the plugin
    reads: [csi_secret] is [Some b] when the extension was set to [b] in
    the schema and [None] when the field does not carry it. *)
Record FieldOptions := { csi_secret : option bool }.

(** [descriptor.FieldDescriptorProto]: both members are pointers. *)
Record FieldDescriptorProto := {
  Name : option string;
  Options : option FieldOptions
}.

(** [descriptor.DescriptorProto]; a nil [Field] slice is the empty list. *)
Record DescriptorProto := { Field : list FieldDescriptorProto }.

Definition GetName (f : FieldDescriptorProto) : string := default "" (Name f).
Definition GetField (md : DescriptorProto) : list FieldDescriptorProto := Field md.

(** What [proto.GetExtension] hands back as an [interface{}]. *)
Inductive extension_value := BoolPtr (b : bool).

Inductive extension_error := NotExtendable | ErrMissingExtension.

(** [proto.GetExtension(opts, csipb.E_CsiSecret)]: a nil options message is
    not extendable, an options message without the extension reports
    [ErrMissingExtension] (a bool extension has no default), and a set
    extension is returned as a [*bool]. *)
Definition GetExtension (opts : option FieldOptions) : extension_value + extension_error :=
  match opts with
  | None => inr NotExtendable
  | Some o =>
      match csi_secret o with
      | Some b => inl (BoolPtr b)
      | None => inr ErrMissingExtension
      end
  end.

End Descriptor.
Import Descriptor.

(* ===================================================================== *)
(** ** Run-time values, the store and outcomes *)
(* ===================================================================== *)

Definition loc := positive.

(** A Go [map[string]string] value: [None] is the nil map. *)
Definition gomap := option (gmap string string).

(** The value held by a struct field, as far as [SanitizeMsg] can tell
    values apart: a [map[string]string] (nil, or a reference to a map
    object) or a value of another type. *)
Inductive fvalue :=
| VString (s : string)
| VBool (b : bool)
| VMap (r : option loc).

Global Instance fvalue_eq_dec : EqDecision fvalue.
Proof. solve_decision. Defined.

(** A message struct: its fields in declaration order.  [GoName] is the
    name of the Go field, [ProtoName] the name in its protobuf struct tag. *)
Record sfield := { GoName : string; ProtoName : string; Value : fvalue }.

Definition gostruct := list sfield.

(** The store: message structs that are reached through a pointer, and the
    map objects. *)
Record heap := {
  structs : gmap loc gostruct;
  maps : gmap loc (gmap string string)
}.

(** The dynamic value in an [interface{}]: either its type has no
    [Descriptor] method (the nil interface included), or it is a message, a
    struct as the protobuf compiler generates them, held by pointer
    (possibly a nil pointer) or by value, together with the descriptor that
    [descriptor.ForMessage] extracts for its type. *)
Inductive receiver :=
| ByPointer (p : option loc)
| ByValue (st : gostruct).

Inductive iface :=
| NoDescriptor
| Message (md : DescriptorProto) (r : receiver).

(** A call returns a value in a final store, or panics in a final store. *)
Inductive outcome (A : Type) :=
| Returns (a : A) (h : heap)
| Panics (h : heap).
Arguments Returns {A} a h.
Arguments Panics {A} h.

Definition final {A} (o : outcome A) : heap :=
  match o with Returns _ h => h | Panics h => h end.

(* ===================================================================== *)
(** ** The reflection steps used by SanitizeMsg *)
(* ===================================================================== *)

Module Reflect.

(** [reflect.Indirect(reflect.ValueOf(msg))]: the struct a message
    designates.  [None] is the zero [Value], obtained from a nil pointer. *)
Definition Indirect (r : receiver) (h : heap) : option gostruct :=
  match r with
  | ByPointer None => None
  | ByPointer (Some p) => structs h !! p
  | ByValue st => Some st
  end.

(** [v.FieldByName(name)] on a struct; [None] is the zero [Value]. *)
Fixpoint FieldByName (st : gostruct) (name : string) : option sfield :=
  match st with
  | [] => None
  | f :: st' => if String.eqb (GoName f) name then Some f else FieldByName st' name
  end.

(** [v.Interface()] of a looked-up field: it panics (here [None]) on the
    zero [Value] and on a field that is not exported. *)
Definition Interface (name : string) (v : option sfield) : option fvalue :=
  match v with
  | None => None
  | Some f => if GoStrings.IsExported name then Some (Value f) else None
  end.

(** [v.CanSet()] of a field looked up in an addressable struct: false on
    the zero [Value] and on a field that is not exported. *)
Definition CanSet (name : string) (v : option sfield) : bool :=
  match v with
  | None => false
  | Some _ => GoStrings.IsExported name
  end.

(** The struct after [FieldByName(name).Set(v)]. *)
Fixpoint set_field (st : gostruct) (name : string) (v : fvalue) : gostruct :=
  match st with
  | [] => []
  | f :: st' =>
      if String.eqb (GoName f) name
      then {| GoName := GoName f; ProtoName := ProtoName f; Value := v |} :: st'
      else f :: set_field st' name v
  end.

(** [s.Elem().FieldByName(name).Set(v)] for a pointer [p] ([Set] is a
    reserved word). *)
Definition Set_ (p : loc) (name : string) (v : fvalue) (h : heap) : heap :=
  {| structs := alter (fun st => set_field st name v) p (structs h);
     maps := maps h |}.

End Reflect.

(* ===================================================================== *)
(** ** SanitizeMsg *)
(* ===================================================================== *)

Definition marker : string := "* * * Sanitized * * *".

(** The loop of lines 164-174: the descriptors whose options carry the
    [csi_secret] extension are appended to [sanitizeFields], and the loop is
    left by [break] right after the first append. *)
Fixpoint collect (fields sanitizeFields : list FieldDescriptorProto)
  : list FieldDescriptorProto :=
  match fields with
  | [] => sanitizeFields
  | field :: rest =>
      match GetExtension (Options field) with
      | inl (BoolPtr _) => sanitizeFields ++ [field]
      | inr _ => collect rest sanitizeFields
      end
  end.

(** [strings.ToUpper(fieldName[:1]) + fieldName[1:]]; slicing the empty
    string panics ([None]). *)
Definition capitalize (fieldName : string) : option string :=
  match fieldName with
  | EmptyString => None
  | String c rest => Some (GoStrings.ToUpper c ++ rest)
  end.

(** [m[key] = v] for the map object at [l]. *)
Definition assign (l : loc) (key v : string) (h : heap) : heap :=
  {| structs := structs h; maps := alter (fun m => <[key := v]> m) l (maps h) |}.

(** The keys [range m] visits, in the order of one particular run. *)
Definition range_keys (m : option loc) (h : heap) : list string :=
  match m with
  | None => []
  | Some l => (map_to_list (default ∅ (maps h !! l))).*1
  end.

(** Lines 190-192, for the keys in the order [keys]: a nil map has no keys
    and is never assigned to. *)
Definition redact_keys (m : option loc) (keys : list string) (h : heap) : heap :=
  match m with
  | None => h
  | Some l => foldl (fun h key => assign l key marker h) h keys
  end.

Definition redact (m : option loc) (h : heap) : heap :=
  redact_keys m (range_keys m h) h.

(** How one round of the loop of lines 182-198 ends. *)
Inductive flow :=
| Next (h : heap)
| Exit (s : string) (h : heap)
| Panic (h : heap).

(** The body of the loop of lines 182-198 for one descriptor. *)
Definition sanitize_field (r : receiver) (field : FieldDescriptorProto) (h : heap) : flow :=
  match capitalize (GetName field) with
  | None => Panic h
  | Some fieldName =>
      match Reflect.Indirect r h with
      | None => Panic h
      | Some st =>
          match Reflect.Interface fieldName (Reflect.FieldByName st fieldName) with
          | None => Panic h
          | Some (VMap m) =>
              let h1 := redact m h in
              match r with
              | ByValue _ => Panic h1
              | ByPointer None => Panic h1
              | ByPointer (Some p) =>
                  let target := structs h1 !! p ≫= fun st' => Reflect.FieldByName st' fieldName in
                  if Reflect.CanSet fieldName target
                  then Next (Reflect.Set_ p fieldName (VMap m) h1)
                  else Exit "" h1
              end
          | Some _ => Exit "" h
          end
      end
  end.

Fixpoint sanitize_fields (r : receiver) (sanitizeFields : list FieldDescriptorProto)
    (h : heap) : flow :=
  match sanitizeFields with
  | [] => Next h
  | field :: rest =>
      match sanitize_field r field h with
      | Next h' => sanitize_fields r rest h'
      | stop => stop
      end
  end.

Section Sanitize.

(** [fmt.Sprintf("%v", msg)]: the text of the message in the store. *)
Variable Sprintf_v : iface -> heap -> string.

(** Lines 154-201.  The interface [descriptor.Message] includes
    [proto.Message], so the assertion of line 178 succeeds whenever the one
    of line 155 does. *)
Definition SanitizeMsg (pb : iface) (h : heap) : outcome string :=
  match pb with
  | NoDescriptor => Returns "" h
  | Message md msg =>
      match GetField md with
      | [] => Returns "" h
      | fields =>
          let sanitizeFields := collect fields [] in
          if (length sanitizeFields =? 0)%nat then Returns "" h
          else
            match sanitize_fields msg sanitizeFields h with
            | Next h' => Returns (Sprintf_v pb h') h'
            | Exit s h' => Returns s h'
            | Panic h' => Panics h'
            end
      end
  end.

End Sanitize.

(* ===================================================================== *)
(** ** A renderer for the examples *)
(* ===================================================================== *)

Module Text.

(** The double quote character. *)
Definition dquote : string := String (ascii_of_nat 34) EmptyString.

Definition quoted (s : string) : string := dquote ++ s ++ dquote.

(** One map entry in compact text form. *)
Definition entry (name : string) (kv : string * string) : string :=
  name ++ ":<key:" ++ quoted kv.1 ++ " value:" ++ quoted kv.2 ++ " > ".

Definition concat (l : list string) : string := foldr String.append EmptyString l.

(** One field in compact text form; proto3 leaves zero values out, and
    map entries are written in the order of their keys. *)
Definition field (h : heap) (f : sfield) : string :=
  match Value f with
  | VString EmptyString => EmptyString
  | VString s => ProtoName f ++ ":" ++ quoted s ++ " "
  | VBool false => EmptyString
  | VBool true => ProtoName f ++ ":true "
  | VMap None => EmptyString
  | VMap (Some l) =>
      concat (map (entry (ProtoName f))
                  (merge_sort GoStrings.key_le (map_to_list (default ∅ (maps h !! l)))))
  end.

(** The shape of [proto.CompactTextString], which the generated [String]
    methods of messages call and [fmt.Sprintf("%v", msg)] therefore
    prints, on fields of printable text (no escaping is modelled). *)
Definition CompactTextString (pb : iface) (h : heap) : string :=
  match pb with
  | NoDescriptor => EmptyString
  | Message _ r =>
      match Reflect.Indirect r h with
      | None => "<nil>"
      | Some st => concat (map (field h) st)
      end
  end.

End Text.

(* ===================================================================== *)
(** ** Notions used to state the properties of SanitizeMsg *)
(* ===================================================================== *)

(** A descriptor carries the [csi_secret] extension. *)
Definition annotated (f : FieldDescriptorProto) : bool :=
  match GetExtension (Options f) with
  | inl _ => true
  | inr _ => false
  end.

(** The value that line 186 reads for a descriptor: its capitalised name
    looked up in the struct of the message.  [None] when one of the steps
    panics. *)
Definition field_value (r : receiver) (field : FieldDescriptorProto) (h : heap)
  : option fvalue :=
  fieldName ← capitalize (GetName field);
  st ← Reflect.Indirect r h;
  Reflect.Interface fieldName (Reflect.FieldByName st fieldName).

(** The value read for the descriptor that [SanitizeMsg] collects. *)
Definition collected_value (pb : iface) (h : heap) : option fvalue :=
  match pb with
  | NoDescriptor => None
  | Message md r =>
      field ← head (collect (GetField md) []);
      field_value r field h
  end.

(** The store in which every value of the map object at [l] is the marker. *)
Definition redacted (l : loc) (h : heap) : heap :=
  {| structs := structs h;
     maps := alter (fun m => (fun _ => marker) <$> m) l (maps h) |}.

(** One assignment of the marker, as in line 191. *)
Definition set_marker (m : gmap string string) (key : string) : gmap string string :=
  <[key := marker]> m.

(** The outcomes of [SanitizeMsg], case by case. *)
Definition SanitizeMsg_cases (Sprintf_v : iface -> heap -> string) (pb : iface) (h : heap)
  : outcome string :=
  match pb with
  | NoDescriptor => Returns "" h
  | Message md r =>
      match collect (GetField md) [] with
      | [] => Returns "" h
      | field :: _ =>
          match field_value r field h with
          | None => Panics h
          | Some (VMap m) =>
              match r with
              | ByPointer _ => Returns (Sprintf_v pb (redact m h)) (redact m h)
              | ByValue _ => Panics (redact m h)
              end
          | Some _ => Returns "" h
          end
      end
  end.

(** [n] successive calls of [SanitizeMsg] on the same message, each in the
    store the previous one left. *)
Fixpoint call_times (Sprintf_v : iface -> heap -> string) (n : nat) (pb : iface)
    (h : heap) : outcome (list string) :=
  match n with
  | O => Returns [] h
  | S n' =>
      match SanitizeMsg Sprintf_v pb h with
      | Returns s h' =>
          match call_times Sprintf_v n' pb h' with
          | Returns l h'' => Returns (s :: l) h''
          | Panics h'' => Panics h''
          end
      | Panics h' => Panics h'
      end
  end.

(** The schema of the message declares no field with the [csi_secret]
    extension, or the value has no schema at all. *)
Definition no_sensitive_field (pb : iface) : Prop :=
  match pb with
  | NoDescriptor => True
  | Message md _ => Forall (fun f => annotated f = false) (GetField md)
  end.

(** Two stores that differ at most in the values (not the keys) of the map
    object at [l]. *)
Definition same_keys (l : loc) (h1 h2 : heap) : Prop :=
  structs h1 = structs h2 /\
  (forall l', l' <> l -> maps h1 !! l' = maps h2 !! l') /\
  dom <$> (maps h1 !! l) = dom <$> (maps h2 !! l).

(* ===================================================================== *)
(** ** Example messages *)
(* ===================================================================== *)

Module Examples.

Definition secret_option : option FieldOptions := Some {| csi_secret := Some true |}.

Definition descr (name : string) (o : option FieldOptions) : FieldDescriptorProto :=
  {| Name := Some name; Options := o |}.

Definition gofield (go proto : string) (v : fvalue) : sfield :=
  {| GoName := go; ProtoName := proto; Value := v |}.

(** A request with a volume id and one secrets map. *)
Definition publish_schema : DescriptorProto :=
  {| Field := [descr "volume_id" None; descr "secrets" secret_option] |}.

Definition publish_struct : gostruct :=
  [gofield "VolumeId" "volume_id" (VString "vol-123");
   gofield "Secrets" "secrets" (VMap (Some 2%positive))].

Definition publish_request : iface := Message publish_schema (ByPointer (Some 1%positive)).

Definition store_with (secrets : gmap string string) : heap :=
  {| structs := {[ 1%positive := publish_struct ]};
     maps := {[ 2%positive := secrets ]} |}.

Definition publish_store : heap :=
  store_with {[ "username" := "alice"; "password" := "p@ss" ]}.

Definition other_store : heap :=
  store_with {[ "username" := "bob"; "password" := "hunter2" ]}.

(** The same request with credentials that are part of their own keys. *)
Definition weak_store : heap :=
  store_with {[ "username" := "user"; "password" := "pass" ]}.

(** A request whose secrets field is a plain string. *)
Definition malformed_struct : gostruct :=
  [gofield "VolumeId" "volume_id" (VString "vol-123");
   gofield "Secrets" "secrets" (VString "p@ss")].

Definition malformed_store : heap :=
  {| structs := {[ 1%positive := malformed_struct ]}; maps := ∅ |}.

(** A request whose schema annotates two fields. *)
Definition staged_schema : DescriptorProto :=
  {| Field := [descr "volume_id" None; descr "secrets" secret_option;
               descr "credentials" secret_option] |}.

Definition staged_struct : gostruct :=
  [gofield "VolumeId" "volume_id" (VString "vol-123");
   gofield "Secrets" "secrets" (VMap (Some 2%positive));
   gofield "Credentials" "credentials" (VMap (Some 3%positive))].

Definition staged_request : iface := Message staged_schema (ByPointer (Some 1%positive)).

Definition staged_store : heap :=
  {| structs := {[ 1%positive := staged_struct ]};
     maps := {[ 2%positive := {[ "password" := "p@ss" ]};
                3%positive := {[ "token" := "hunter2" ]} ]} |}.

(** A request whose annotated field has a name of two words: the Go field
    generated for [node_secrets] is [NodeSecrets]. *)
Definition node_schema : DescriptorProto :=
  {| Field := [descr "volume_id" None; descr "node_secrets" secret_option] |}.

Definition node_struct : gostruct :=
  [gofield "VolumeId" "volume_id" (VString "vol-123");
   gofield "NodeSecrets" "node_secrets" (VMap (Some 2%positive))].

Definition node_request : iface := Message node_schema (ByPointer (Some 1%positive)).

Definition node_store : heap :=
  {| structs := {[ 1%positive := node_struct ]};
     maps := {[ 2%positive := {[ "password" := "p@ss" ]} ]} |}.

(** The same request with a plain string in the annotated field. *)
Definition node_plain_struct : gostruct :=
  [gofield "VolumeId" "volume_id" (VString "vol-123");
   gofield "NodeSecrets" "node_secrets" (VString "p@ss")].

Definition node_plain_store : heap :=
  {| structs := {[ 1%positive := node_plain_struct ]}; maps := ∅ |}.

(** A request whose schema annotates a secrets map and a token, which is a
    plain string. *)
Definition token_schema : DescriptorProto :=
  {| Field := [descr "volume_id" None; descr "secrets" secret_option;
               descr "token" secret_option] |}.

Definition token_struct : gostruct :=
  [gofield "VolumeId" "volume_id" (VString "vol-123");
   gofield "Secrets" "secrets" (VMap (Some 2%positive));
   gofield "Token" "token" (VString "hunter2")].

Definition token_request : iface := Message token_schema (ByPointer (Some 1%positive)).

Definition token_store : heap :=
  {| structs := {[ 1%positive := token_struct ]};
     maps := {[ 2%positive := {[ "password" := "p@ss" ]} ]} |}.

(** A message without annotated fields. *)
Definition probe_schema : DescriptorProto := {| Field := [descr "volume_id" None] |}.
Definition probe_request : iface := Message probe_schema (ByPointer (Some 1%positive)).

End Examples.

(* ===================================================================== *)
(** ** getCredentialsFromSecret *)
(* ===================================================================== *)

Module Credentials.

(** [api.SecretReference]. *)
Record SecretReference := { Name : string; Namespace : string }.

(** [api.Secret], reduced to its [Data]: a [map[string][]byte]. *)
Record Secret := { Data : gmap string (list Byte.byte) }.

Section WithClient.

(** The error values of the client. *)
Variable error : Type.

(** [k8s.CoreV1().Secrets(namespace).Get(name, meta.GetOptions{})]. *)
Variable Get : string -> string -> Secret + error.

(** [credentials[key] = string(value)] for one entry of [secret.Data]. *)
Definition store_entry (credentials : gmap string string) (entry : string * list Byte.byte)
  : gmap string string :=
  <[entry.1 := string_of_list_byte entry.2]> credentials.

(** The function returns a pair of a map and an error ([None] is nil); it
    panics ([None]) when [secretRef] is a nil pointer. *)
Definition getCredentialsFromSecret (secretRef : option SecretReference)
  : option (gomap * option error) :=
  let credentials : gmap string string := ∅ in
  match secretRef with
  | None => None
  | Some ref =>
      match Get (Namespace ref) (Name ref) with
      | inr err => Some (Some credentials, Some err)
      | inl secret =>
          let credentials := foldl store_entry credentials (map_to_list (Data secret)) in
          Some (Some credentials, None)
      end
  end.

End WithClient.

End Credentials.

(* ===================================================================== *)
(** ** Paths: path.Clean and path.Join *)
(* ===================================================================== *)

Module Path.

Local Open Scope char_scope.
Local Open Scope list_scope.

(** The state of the loop of [path.Clean]: the bytes written so far, last
    byte first (the [lazybuf] up to [w]), and the index [dotdot] below which
    a [..] element must not remove anything. *)
Record cleaning := { out : list ascii; dotdot : nat }.

(** The test [r+1 == n || path[r+1] == '/'] on the bytes that follow. *)
Definition ends_element (rest : list ascii) : bool :=
  match rest with
  | [] => true
  | c :: _ => Ascii.eqb c "/"
  end.

(** A [..] element that can backtrack: [out.w--], then
    [for out.w > dotdot && out.index(out.w) != '/' { out.w-- }]. *)
Fixpoint backtrack (buf : list ascii) (dotdot : nat) : list ascii :=
  match buf with
  | [] => []
  | c :: buf' =>
      if (dotdot <? length buf')%nat && negb (Ascii.eqb c "/")
      then backtrack buf' dotdot
      else buf'
  end.

(** The [..] case of the switch. *)
Definition dotdot_element (rooted : bool) (st : cleaning) : cleaning :=
  if (dotdot st <? length (out st))%nat then
    {| out := backtrack (out st) (dotdot st); dotdot := dotdot st |}
  else if negb rooted then
    let buf := if (0 <? length (out st))%nat then "/" :: out st else out st in
    let buf := "." :: "." :: buf in
    {| out := buf; dotdot := length buf |}
  else st.

(** The default case of the switch up to the copy: a slash is added if
    needed. *)
Definition start_element (rooted : bool) (st : cleaning) : cleaning :=
  if (rooted && negb (length (out st) =? 1)%nat)
     || (negb rooted && negb (length (out st) =? 0)%nat)
  then {| out := "/" :: out st; dotdot := dotdot st |}
  else st.

Definition append (c : ascii) (st : cleaning) : cleaning :=
  {| out := c :: out st; dotdot := dotdot st |}.

(** The loop [for r < n] over the bytes not yet read.  [copying] tells that
    the inner loop of the default case, which copies a path element up to
    the next slash, is running. *)
Fixpoint clean_loop (rooted : bool) (path : list ascii) (copying : bool)
    (st : cleaning) : cleaning :=
  match path with
  | [] => st
  | c :: rest =>
      if Ascii.eqb c "/" then clean_loop rooted rest false st
      else if copying then clean_loop rooted rest true (append c st)
      else if Ascii.eqb c "." && ends_element rest then clean_loop rooted rest false st
      else
        match rest with
        | c2 :: rest2 =>
            if Ascii.eqb c "." && Ascii.eqb c2 "." && ends_element rest2
            then clean_loop rooted rest2 false (dotdot_element rooted st)
            else clean_loop rooted rest true (append c (start_element rooted st))
        | [] => clean_loop rooted rest true (append c (start_element rooted st))
        end
  end.

(** The state in which [path.Clean] leaves its loop. *)
Definition clean_state (path : list ascii) : cleaning :=
  match path with
  | [] => {| out := []; dotdot := 0 |}
  | c :: rest =>
      if Ascii.eqb c "/"
      then clean_loop true rest false {| out := ["/"]; dotdot := 1 |}
      else clean_loop false path false {| out := []; dotdot := 0 |}
  end.

(** [path.Clean]. *)
Definition Clean (path : string) : string :=
  match path with
  | EmptyString => "."%string
  | _ =>
      let st := clean_state (list_ascii_of_string path) in
      if (length (out st) =? 0)%nat then "."%string
      else string_of_list_ascii (rev (out st))
  end.

(** [strings.Join(elem, "/")]. *)
Fixpoint join_slash (elem : list string) : string :=
  match elem with
  | [] => EmptyString
  | [e] => e
  | e :: rest => (e ++ "/" ++ join_slash rest)%string
  end.

(** [path.Join]: the elements from the first non-empty one on are joined
    with slashes and cleaned. *)
Fixpoint Join (elem : list string) : string :=
  match elem with
  | [] => EmptyString
  | e :: rest =>
      match e with
      | EmptyString => Join rest
      | _ => Clean (join_slash elem)
      end
  end.

(** Notions used to state the facts about [Clean] and [Join]. *)

(** Whether a path is rooted. *)
Definition rooted (path : list ascii) : bool :=
  match path with
  | c :: _ => Ascii.eqb c "/"
  | [] => false
  end.

(** When the path is rooted the first byte written, the slash, stays. *)
Definition keeps_root (st : cleaning) : Prop :=
  dotdot st = 1%nat /\ exists buf, out st = buf ++ ["/"].

(** A path element that is copied as it is: it is not empty, has no slash
    and does not start with a dot. *)
Definition plain (e : list ascii) : Prop :=
  match e with
  | [] => False
  | c :: _ => c <> "." /\ Forall (fun c => c <> "/") e
  end.

(** The text [path.Clean] puts before a plain last element of a path whose
    first part is [Y]. *)
Definition child_prefix (Y : string) : string :=
  let l := list_ascii_of_string Y in
  string_of_list_ascii (rev (out (start_element (rooted l) (clean_state l)))).

(** What [strings.Join] builds from the first two elements of a path, from
    the first non-empty one on. *)
Definition joined (a b : string) : string :=
  match a with
  | EmptyString => b
  | _ => (a ++ "/" ++ b)%string
  end.

(** The text [path.Join] puts before a plain third element. *)
Definition dir_prefix (a b : string) : string :=
  match joined a b with
  | EmptyString => EmptyString
  | Y => child_prefix Y
  end.

End Path.

(* ===================================================================== *)
(** ** The directories of a block volume *)
(* ===================================================================== *)

(** The part of [volume.VolumeHost] the plugin uses here. *)
Class VolumeHost (H : Type) := {
  GetVolumeDevicePluginDir : H -> string -> string
}.

Section VolumeDevice.

Context {H : Type} `{VolumeHost H}.

(** The name of the plugin, a constant of the package. *)
Variable csiPluginName : string.

(** [kstrings.EscapeQualifiedNameForDisk], of another package. *)
Variable EscapeQualifiedNameForDisk : string -> string.

Definition getVolumeDevicePluginDir (specVolID : string) (host : H) : string :=
  let sanitizedSpecVolID := EscapeQualifiedNameForDisk specVolID in
  Path.Join [GetVolumeDevicePluginDir host csiPluginName; sanitizedSpecVolID; "dev"].

Definition getVolumeDeviceDataDir (specVolID : string) (host : H) : string :=
  let sanitizedSpecVolID := EscapeQualifiedNameForDisk specVolID in
  Path.Join [GetVolumeDevicePluginDir host csiPluginName; sanitizedSpecVolID; "data"].

End VolumeDevice.

(** A kubelet host and an escape of slashes for the examples. *)
Definition kubelet_host : VolumeHost string :=
  {| GetVolumeDevicePluginDir root plugin :=
       root ++ "/plugins/" ++ plugin ++ "/volumeDevices" |}.

(* ===================================================================== *)
(** ** encoding/json on maps of strings *)
(* ===================================================================== *)

Module Json.

(** The code of a byte. *)
Definition code (c : ascii) : N := N_of_ascii c.

Definition byte (n : N) : ascii := ascii_of_N n.

Definition between (lo hi : N) (c : ascii) : bool :=
  (lo <=? code c)%N && (code c <=? hi)%N.

Definition quote : ascii := byte 34.
Definition backslash : ascii := byte 92.

(** U+FFFD in UTF-8, what an invalid byte is replaced with. *)
Definition replacement : string :=
  String (byte 239) (String (byte 191) (String (byte 189) EmptyString)).

(** The size that [utf8.DecodeRuneInString] reports for the bytes at the
    head of [s] when they are a well-formed encoding of more than one byte,
    and 0 when they are not (the function then reports [RuneError] with
    size 1).  The ranges are those of the tables [first] and
    [acceptRanges]. *)
Definition rune_len (s : string) : nat :=
  match s with
  | String b0 (String b1 rest) =>
      if between 194 223 b0 then
        if between 128 191 b1 then 2 else 0
      else if between 224 239 b0 then
        let lo := if (code b0 =? 224)%N then 160%N else 128%N in
        let hi := if (code b0 =? 237)%N then 159%N else 191%N in
        if between lo hi b1 then
          match rest with
          | String b2 _ => if between 128 191 b2 then 3 else 0
          | EmptyString => 0
          end
        else 0
      else if between 240 244 b0 then
        let lo := if (code b0 =? 240)%N then 144%N else 128%N in
        let hi := if (code b0 =? 244)%N then 143%N else 191%N in
        if between lo hi b1 then
          match rest with
          | String b2 (String b3 _) =>
              if between 128 191 b2 && between 128 191 b3 then 4 else 0
          | _ => 0
          end
        else 0
      else 0
  | _ => 0
  end.

(** The bytes at the head of [s] encode U+2028 or U+2029. *)
Definition line_separator (s : string) : option ascii :=
  match s with
  | String b0 (String b1 (String b2 _)) =>
      if (code b0 =? 226)%N && (code b1 =? 128)%N && between 168 169 b2
      then Some b2 else None
  | _ => None
  end.

Definition hex (n : N) : ascii :=
  if (n <? 10)%N then byte (48 + n) else byte (87 + n).

(** [htmlSafeSet]: the ASCII bytes written as they are. *)
Definition htmlSafe (c : ascii) : bool :=
  between 32 127 c
  && negb (Ascii.eqb c quote) && negb (Ascii.eqb c backslash)
  && negb (Ascii.eqb c "<") && negb (Ascii.eqb c ">") && negb (Ascii.eqb c "&").

(** What [encodeState.string] writes for one ASCII byte. *)
Definition escape (c : ascii) : string :=
  if htmlSafe c then String c EmptyString
  else if Ascii.eqb c backslash || Ascii.eqb c quote then String backslash (String c EmptyString)
  else if (code c =? 10)%N then String backslash "n"
  else if (code c =? 13)%N then String backslash "r"
  else if (code c =? 9)%N then String backslash "t"
  else String backslash
         (String "u" (String "0" (String "0"
            (String (hex (code c / 16)) (String (hex (code c mod 16)) EmptyString))))).

(** The loop of [encodeState.string] with HTML escaping.  [skip] counts
    the bytes of the rune at hand that are still to be passed over, and
    [copy] tells whether they are written. *)
Fixpoint encode_bytes (skip : nat) (copy : bool) (s : string) : string :=
  match s with
  | EmptyString => EmptyString
  | String c rest =>
      match skip with
      | S skip' =>
          if copy then String c (encode_bytes skip' copy rest)
          else encode_bytes skip' copy rest
      | O =>
          if (code c <? 128)%N then escape c ++ encode_bytes 0 true rest
          else
            match rune_len s with
            | O => String backslash "ufffd" ++ encode_bytes 0 true rest
            | S n =>
                match line_separator s with
                | Some b2 =>
                    String backslash "u202" ++ String (hex (code b2 mod 16)) EmptyString
                      ++ encode_bytes n false rest
                | None => String c (encode_bytes n true rest)
                end
            end
      end
  end.

(** [encodeState.string]: a JSON string literal. *)
Definition encode_string (s : string) : string :=
  String quote (encode_bytes 0 true s ++ String quote EmptyString).

(** The value of a hexadecimal digit. *)
Definition hexval (c : ascii) : option N :=
  if between 48 57 c then Some (code c - 48)%N
  else if between 97 102 c then Some (code c - 87)%N
  else if between 65 70 c then Some (code c - 55)%N
  else None.

(** [getu4] on the four digits that follow [\u]. *)
Definition hex4 (h1 h2 h3 h4 : ascii) : option N :=
  match hexval h1, hexval h2, hexval h3, hexval h4 with
  | Some a, Some b, Some c, Some d => Some (((a * 16 + b) * 16 + c) * 16 + d)%N
  | _, _, _, _ => None
  end.

(** [utf8.EncodeRune]. *)
Definition encode_rune (r : N) : string :=
  (if r <? 128 then String (byte r) EmptyString
   else if r <? 2048 then
     String (byte (192 + r / 64)) (String (byte (128 + r mod 64)) EmptyString)
   else if (55296 <=? r) && (r <=? 57343) || (1114111 <? r) then replacement
   else if r <? 65536 then
     String (byte (224 + r / 4096))
       (String (byte (128 + (r / 64) mod 64))
          (String (byte (128 + r mod 64)) EmptyString))
   else
     String (byte (240 + r / 262144))
       (String (byte (128 + (r / 4096) mod 64))
          (String (byte (128 + (r / 64) mod 64))
             (String (byte (128 + r mod 64)) EmptyString))))%N.

(** [utf16.DecodeRune]: the rune of a surrogate pair, U+FFFD when the two
    units are not a pair. *)
Definition decode_pair (r1 r2 : N) : N :=
  (if (55296 <=? r1) && (r1 <? 56320) && (56320 <=? r2) && (r2 <? 57344)
   then (r1 - 55296) * 1024 + (r2 - 56320) + 65536
   else 65533)%N.

Definition is_surrogate (r : N) : bool := ((55296 <=? r) && (r <? 57344))%N.

(** The escapes of one character. *)
Definition simple_escape (e : ascii) : option ascii :=
  if Ascii.eqb e quote then Some quote
  else if Ascii.eqb e backslash then Some backslash
  else if Ascii.eqb e "/" then Some "/"%char
  else if Ascii.eqb e "b" then Some (byte 8)
  else if Ascii.eqb e "f" then Some (byte 12)
  else if Ascii.eqb e "n" then Some (byte 10)
  else if Ascii.eqb e "r" then Some (byte 13)
  else if Ascii.eqb e "t" then Some (byte 9)
  else None.

(** [unquote] on the inside of a string literal: escapes are replaced,
    bytes that are not well-formed UTF-8 become U+FFFD, and what the scanner
    refuses in a literal (a control character, a bare quote, an unknown
    escape) gives [None].  [skip] counts the bytes of the rune at hand that
    are still to be copied. *)
Fixpoint unquote_bytes (skip : nat) (s : string) : option string :=
  match s with
  | EmptyString => Some EmptyString
  | String c rest =>
      match skip with
      | S skip' => String c <$> unquote_bytes skip' rest
      | O =>
          if Ascii.eqb c backslash then
            match rest with
            | EmptyString => None
            | String e rest1 =>
                if Ascii.eqb e "u" then
                  match rest1 with
                  | String h1 (String h2 (String h3 (String h4 rest2))) =>
                      match hex4 h1 h2 h3 h4 with
                      | None => None
                      | Some r =>
                          if is_surrogate r then
                            match rest2 with
                            | String b (String u (String g1 (String g2 (String g3 (String g4 rest3))))) =>
                                match
                                  (if Ascii.eqb b backslash && Ascii.eqb u "u"
                                   then hex4 g1 g2 g3 g4 else None)
                                with
                                | Some r2 =>
                                    if (decode_pair r r2 =? 65533)%N
                                    then String.append replacement <$> unquote_bytes 0 rest2
                                    else String.append (encode_rune (decode_pair r r2))
                                           <$> unquote_bytes 0 rest3
                                | None => String.append replacement <$> unquote_bytes 0 rest2
                                end
                            | _ => String.append replacement <$> unquote_bytes 0 rest2
                            end
                          else String.append (encode_rune r) <$> unquote_bytes 0 rest2
                      end
                  | _ => None
                  end
                else
                  match simple_escape e with
                  | Some x => String x <$> unquote_bytes 0 rest1
                  | None => None
                  end
            end
          else if Ascii.eqb c quote || (code c <? 32)%N then None
          else if (code c <? 128)%N then String c <$> unquote_bytes 0 rest
          else
            match rune_len s with
            | O => String.append replacement <$> unquote_bytes 0 rest
            | S n => String c <$> unquote_bytes n rest
            end
      end
  end.

Definition unquote (s : string) : option string := unquote_bytes 0 s.

Definition isSpace (c : ascii) : bool :=
  Ascii.eqb c " " || (code c =? 9)%N || (code c =? 13)%N || (code c =? 10)%N.

(** The states of the decoder reading one value into a map of strings:
    before the value, inside [null], after the opening brace, inside a key
    (with the bytes of the literal read so far and whether the last one
    opened an escape), before the colon, before a member value, inside a
    value literal, inside a member [null], after a member, after a comma,
    and the two final states. *)
Inductive dstate :=
| SBegin
| STopNull (rem : string)
| SOpen (m : gmap string string)
| SKey (raw : string) (esc : bool) (m : gmap string string)
| SColon (key : string) (m : gmap string string)
| SValue (key : string) (m : gmap string string)
| SStr (key : string) (raw : string) (esc : bool) (m : gmap string string)
| SMemberNull (rem : string) (key : string) (m : gmap string string)
| SNext (m : gmap string string)
| SComma (m : gmap string string)
| SDone (r : gomap)
| SError.

Definition snoc (s : string) (c : ascii) : string := s ++ String c EmptyString.

Definition step (st : dstate) (c : ascii) : dstate :=
  match st with
  | SBegin =>
      if isSpace c then SBegin
      else if Ascii.eqb c "{" then SOpen ∅
      else if Ascii.eqb c "n" then STopNull "ull"
      else SError
  | STopNull rem =>
      match rem with
      | String x EmptyString => if Ascii.eqb c x then SDone None else SError
      | String x rem' => if Ascii.eqb c x then STopNull rem' else SError
      | EmptyString => SError
      end
  | SOpen m =>
      if isSpace c then SOpen m
      else if Ascii.eqb c quote then SKey EmptyString false m
      else if Ascii.eqb c "}" then SDone (Some m)
      else SError
  | SKey raw esc m =>
      if esc then SKey (snoc raw c) false m
      else if Ascii.eqb c backslash then SKey (snoc raw c) true m
      else if Ascii.eqb c quote then
        match unquote raw with
        | Some key => SColon key m
        | None => SError
        end
      else SKey (snoc raw c) false m
  | SColon key m =>
      if isSpace c then SColon key m
      else if Ascii.eqb c ":" then SValue key m
      else SError
  | SValue key m =>
      if isSpace c then SValue key m
      else if Ascii.eqb c quote then SStr key EmptyString false m
      else if Ascii.eqb c "n" then SMemberNull "ull" key m
      else SError
  | SStr key raw esc m =>
      if esc then SStr key (snoc raw c) false m
      else if Ascii.eqb c backslash then SStr key (snoc raw c) true m
      else if Ascii.eqb c quote then
        match unquote raw with
        | Some value => SNext (<[key := value]> m)
        | None => SError
        end
      else SStr key (snoc raw c) false m
  | SMemberNull rem key m =>
      match rem with
      | String x EmptyString =>
          if Ascii.eqb c x then SNext (<[key := EmptyString]> m) else SError
      | String x rem' => if Ascii.eqb c x then SMemberNull rem' key m else SError
      | EmptyString => SError
      end
  | SNext m =>
      if isSpace c then SNext m
      else if Ascii.eqb c "," then SComma m
      else if Ascii.eqb c "}" then SDone (Some m)
      else SError
  | SComma m =>
      if isSpace c then SComma m
      else if Ascii.eqb c quote then SKey EmptyString false m
      else SError
  | SDone r => SDone r
  | SError => SError
  end.

Fixpoint run (st : dstate) (input : string) : dstate :=
  match input with
  | EmptyString => st
  | String c rest => run (step st c) rest
  end.

(** [json.NewDecoder(file).Decode(&data)] for [data] an empty
    [map[string]string]: the map read, or an error ([None]).  The decoder
    reads one value and leaves what follows it unread.  It accepts [null],
    which makes the map nil, and an object whose members are string
    literals or [null], which stands for the empty string; every other
    document makes [Decode] return an error, for its syntax or for the type
    of a value. *)
Definition Decode (input : string) : option gomap :=
  match run SBegin input with
  | SDone r => Some r
  | _ => None
  end.

(** The members of an object, in the given order. *)
Fixpoint encode_members (entries : list (string * string)) : string :=
  match entries with
  | [] => EmptyString
  | [kv] => encode_string kv.1 ++ ":" ++ encode_string kv.2
  | kv :: rest =>
      encode_string kv.1 ++ ":" ++ encode_string kv.2 ++ "," ++ encode_members rest
  end.

(** [json.Marshal] of a [map[string]string]: [null] for the nil map, and
    otherwise the members in the order of their keys. *)
Definition Marshal (data : gomap) : string :=
  match data with
  | None => "null"
  | Some m => "{" ++ encode_members (merge_sort GoStrings.key_le (map_to_list m)) ++ "}"
  end.

(** [json.NewEncoder(file).Encode(data)] writes the value and a newline. *)
Definition Encode (data : gomap) : string :=
  Marshal data ++ String (byte 10) EmptyString.

(** Notions used to state the facts about [Encode] and [Decode]. *)

(** Well-formed UTF-8, as [utf8.ValidString] tests it: [skip] counts the
    continuation bytes of the rune at hand that are still to come. *)
Fixpoint valid_bytes (skip : nat) (s : string) : bool :=
  match s with
  | EmptyString => true
  | String c rest =>
      match skip with
      | S skip' => between 128 191 c && valid_bytes skip' rest
      | O =>
          if (code c <? 128)%N then valid_bytes 0 rest
          else
            match rune_len s with
            | O => false
            | S n => valid_bytes n rest
            end
      end
  end.

Definition ValidString (s : string) : bool := valid_bytes 0 s.

(** How the scanner passes over the inside of a string literal: [None]
    when it meets the closing quote, and otherwise whether the last byte
    opened an escape. *)
Fixpoint scan (esc : bool) (s : string) : option bool :=
  match s with
  | EmptyString => Some esc
  | String c rest =>
      if esc then scan false rest
      else if Ascii.eqb c backslash then scan true rest
      else if Ascii.eqb c quote then None
      else scan false rest
  end.

Fixpoint string_drop (n : nat) (s : string) : string :=
  match n, s with
  | S n', String _ rest => string_drop n' rest
  | _, _ => s
  end.

(** The text of one member. *)
Definition encode_member (kv : string * string) : string :=
  encode_string kv.1 ++ ":" ++ encode_string kv.2.

(** A state in which the decoder expects a key. *)
Definition expects_key (st : dstate) (m : gmap string string) : Prop :=
  st = SOpen m \/ st = SComma m.

Definition insert_entry (m : gmap string string) (kv : string * string)
  : gmap string string := <[kv.1 := kv.2]> m.

Definition valid_entry (kv : string * string) : Prop :=
  ValidString kv.1 = true /\ ValidString kv.2 = true.

(** The keys and the values of a map are well-formed UTF-8. *)
Definition valid_map (data : gomap) : Prop :=
  match data with
  | None => True
  | Some m => forall key value, m !! key = Some value ->
                ValidString key = true /\ ValidString value = true
  end.

(** [valid_map], as a test. *)
Definition valid_mapb (data : gomap) : bool :=
  match data with
  | None => true
  | Some m => forallb (fun kv => ValidString kv.1 && ValidString kv.2) (map_to_list m)
  end.

End Json.

(* ===================================================================== *)
(** ** The volume data file: saveVolumeData and loadVolumeData *)
(* ===================================================================== *)

Module OS.

(** A file system as far as the two functions use it: the contents of the
    files by path, the paths at which a file can be created or truncated,
    and the number of bytes a file can take. *)
Record filesystem := {
  files : gmap string string;
  creatable : string -> bool;
  room : nat
}.

Inductive error :=
| PathError (op path : string)
| ShortWrite
| DecodeError.

(** [os.Create]: the file is created, or truncated if it exists. *)
Definition Create (name : string) (fs : filesystem) : filesystem + error :=
  if creatable fs name
  then inl {| files := <[name := EmptyString]> (files fs);
              creatable := creatable fs; room := room fs |}
  else inr (PathError "open" name).

(** One [Write] to a file that was just created: when there is no room
    for all the bytes, the file keeps those that fit and the write fails. *)
Definition Write (name content : string) (fs : filesystem) : filesystem * option error :=
  if (String.length content <=? room fs)%nat
  then ({| files := <[name := content]> (files fs);
           creatable := creatable fs; room := room fs |}, None)
  else ({| files := <[name := String.substring 0 (room fs) content]> (files fs);
           creatable := creatable fs; room := room fs |}, Some ShortWrite).

(** [os.Open] followed by reading the file. *)
Definition Open (name : string) (fs : filesystem) : string + error :=
  match files fs !! name with
  | Some content => inl content
  | None => inr (PathError "open" name)
  end.

End OS.

(** The function returns its error ([None] is nil) and leaves a file
    system. *)
Definition saveVolumeData (dir fileName : string) (data : gomap) (fs : OS.filesystem)
  : option OS.error * OS.filesystem :=
  let dataFilePath := Path.Join [dir; fileName] in
  match OS.Create dataFilePath fs with
  | inr err => (Some err, fs)
  | inl fs1 =>
      match OS.Write dataFilePath (Json.Encode data) fs1 with
      | (fs2, Some err) => (Some err, fs2)
      | (fs2, None) => (None, fs2)
      end
  end.

(** The function returns a map and an error: the nil map with the error
    when the file cannot be opened or parsed. *)
Definition loadVolumeData (dir fileName : string) (fs : OS.filesystem)
  : gomap * option OS.error :=
  let dataFileName := Path.Join [dir; fileName] in
  match OS.Open dataFileName fs with
  | inr err => (None, Some err)
  | inl content =>
      match Json.Decode content with
      | None => (None, Some OS.DecodeError)
      | Some data => (data, None)
      end
  end.

(** A file system in which every file can be created. *)
Definition scratch_disk : OS.filesystem :=
  {| OS.files := ∅; OS.creatable := fun _ => true; OS.room := 4096 |}.

(** A file system that has room for twelve bytes in a file. *)
Definition small_disk : OS.filesystem :=
  {| OS.files := ∅; OS.creatable := fun _ => true; OS.room := 12 |}.

(** Notions used to state what [Json.Decode] makes of a file that was cut
    short. *)
Module Truncation.

(** The decoder has read a whole value. *)
Definition is_done (st : Json.dstate) : bool :=
  match st with
  | Json.SDone _ => true
  | _ => false
  end.

(** The decoder has read a whole value before the last byte of [input]. *)
Fixpoint done_before (st : Json.dstate) (input : string) : bool :=
  match input with
  | EmptyString => false
  | String c rest => is_done st || done_before (Json.step st c) rest
  end.

(** Reading [text] takes the decoder from [st] to [st'], and it has not
    read a whole value before the end of [text]. *)
Definition segment (st : Json.dstate) (text : string) (st' : Json.dstate) : Prop :=
  Json.run st text = st' /\ done_before st text = false.

(** The decoder is inside an object or has read one: it is in none of the
    states that lead to the nil map. *)
Definition in_object (st : Json.dstate) : bool :=
  match st with
  | Json.SBegin | Json.STopNull _ | Json.SDone None => false
  | _ => true
  end.

(** A text of white space. *)
Fixpoint spaces (s : string) : bool :=
  match s with
  | EmptyString => true
  | String c rest => Json.isSpace c && spaces rest
  end.

End Truncation.

(* ===================================================================== *)
(** ** The volume spec: getCSISourceFromSpec and getReadOnlyFromSpec *)
(* ===================================================================== *)

Module Api.

(** [api.CSIPersistentVolumeSource], reduced to the members that name the
    volume and to its own read-only flag. *)
Record CSIPersistentVolumeSource := {
  Driver : string;
  VolumeHandle : string;
  ReadOnly : bool
}.

(** [api.PersistentVolumeSpec]: [CSI] is a pointer, [None] when nil. *)
Record PersistentVolumeSpec := { CSI : option CSIPersistentVolumeSource }.

(** [api.PersistentVolume]. *)
Record PersistentVolume := { Spec : PersistentVolumeSpec }.

(** [api.PersistentVolumeAccessMode] is a string type. *)
Definition PersistentVolumeAccessMode := string.

Definition ReadWriteOnce : PersistentVolumeAccessMode := "ReadWriteOnce".
Definition ReadOnlyMany : PersistentVolumeAccessMode := "ReadOnlyMany".
Definition ReadWriteMany : PersistentVolumeAccessMode := "ReadWriteMany".

End Api.

Module Volume.

(** [volume.Spec], reduced to the members the two functions read:
    [PersistentVolume] is a pointer, [None] when nil. *)
Record Spec := {
  PersistentVolume : option Api.PersistentVolume;
  ReadOnly : bool
}.

End Volume.

(** The error built on lines 106 and 115, by its message. *)
Definition source_not_defined : string := "CSIPersistentVolumeSource not defined in spec".

(** The test of lines 101-102 and 110-111, and the pointer it finds. *)
Definition csi_source (spec : Volume.Spec) : option Api.CSIPersistentVolumeSource :=
  match Volume.PersistentVolume spec with
  | Some pv => Api.CSI (Api.Spec pv)
  | None => None
  end.

(** Lines 100-107.  The function returns a pointer and an error ([None] is
    nil for both); it panics ([None]) when [spec] is a nil pointer. *)
Definition getCSISourceFromSpec (spec : option Volume.Spec)
  : option (option Api.CSIPersistentVolumeSource * option string) :=
  match spec with
  | None => None
  | Some spec =>
      match csi_source spec with
      | Some source => Some (Some source, None)
      | None => Some (None, Some source_not_defined)
      end
  end.

(** Lines 109-116. *)
Definition getReadOnlyFromSpec (spec : option Volume.Spec)
  : option (bool * option string) :=
  match spec with
  | None => None
  | Some spec =>
      match csi_source spec with
      | Some _ => Some (Volume.ReadOnly spec, None)
      | None => Some (false, Some source_not_defined)
      end
  end.

(** A spec for a CSI volume, and one without a persistent volume. *)
Definition csi_spec (readOnly : bool) : Volume.Spec :=
  {| Volume.PersistentVolume :=
       Some {| Api.Spec :=
                 {| Api.CSI := Some {| Api.Driver := "csi.example.com";
                                       Api.VolumeHandle := "vol-123";
                                       Api.ReadOnly := false |} |} |};
     Volume.ReadOnly := readOnly |}.

Definition inline_spec (readOnly : bool) : Volume.Spec :=
  {| Volume.PersistentVolume := None; Volume.ReadOnly := readOnly |}.

(* ===================================================================== *)
(** ** hasReadWriteOnce *)
(* ===================================================================== *)

(** The loop of lines 144-148 over the modes not yet visited. *)
Fixpoint range_modes (modes : list Api.PersistentVolumeAccessMode) : bool :=
  match modes with
  | [] => false
  | mode :: rest =>
      if String.eqb mode Api.ReadWriteOnce then true else range_modes rest
  end.

(** Lines 140-150: a slice is [None] when nil. *)
Definition hasReadWriteOnce (modes : option (list Api.PersistentVolumeAccessMode)) : bool :=
  match modes with
  | None => false
  | Some modes => range_modes modes
  end.

(* ===================================================================== *)
(** ** log *)
(* ===================================================================== *)

Module Fmt.

Section Printf.

(** The operands of a call. *)
Variable operand : Type.

(** What [doPrintf] writes from the first verb on, given the format that
    follows the [%] and the operands. *)
Variable verbs : string -> list operand -> string.

(** The text [%!(EXTRA ...)], which reports operands that no verb used. *)
Variable extra : list operand -> string.

(** [doPrintf]: the bytes of the format up to the first [%] are written as
    they are; a format without verbs is followed by the report of the
    operands, if there are any. *)
Fixpoint doPrintf (format : string) (a : list operand) : string :=
  match format with
  | EmptyString =>
      match a with
      | [] => EmptyString
      | _ => extra a
      end
  | String c rest =>
      if Ascii.eqb c "%" then verbs rest a else String c (doPrintf rest a)
  end.

Definition Sprintf (format : string) (a : list operand) : string := doPrintf format a.

End Printf.

(** A text without [%]. *)
Fixpoint literal (s : string) : bool :=
  match s with
  | EmptyString => true
  | String c rest => negb (Ascii.eqb c "%") && literal rest
  end.

End Fmt.

Section Log.

Variable operand : Type.
Variable verbs : string -> list operand -> string.
Variable extra : list operand -> string.

(** The name of the plugin, a constant of the package. *)
Variable csiPluginName : string.

(** Lines 119-121.  The inner call formats two strings with [%s: %s],
    which writes them as they are around the colon; its result is the format
    of the outer call. *)
Definition log (msg : string) (parts : list operand) : string :=
  Fmt.Sprintf operand verbs extra (csiPluginName ++ ": " ++ msg) parts.

End Log.

(* ********************************************************************* *)
(** * Part II: properties *)
(* ********************************************************************* *)

(* ===================================================================== *)
(** ** Facts about the steps of SanitizeMsg *)
(* ===================================================================== *)

Lemma heap_eq (h1 h2 : heap) :
  structs h1 = structs h2 -> maps h1 = maps h2 -> h1 = h2.
Proof. destruct h1, h2; simpl; intros -> ->; reflexivity. Qed.

Lemma collect_app fields acc :
  collect fields acc = (acc ++ collect fields [])%list.
Proof.
  induction fields as [|f fields IH]; simpl.
  - by rewrite app_nil_r.
  - destruct (GetExtension (Options f)) as [[b]|e]; [reflexivity | exact IH].
Qed.

(** [sanitizeFields] is the first annotated descriptor, if there is one. *)
Lemma collect_first fields :
  collect fields [] = take 1 (filter (fun f => annotated f = true) fields).
Proof.
  induction fields as [|f fields IH]; simpl; [reflexivity|].
  rewrite filter_cons.
  destruct (decide (annotated f = true)) as [Ha|Ha]; unfold annotated in Ha;
    destruct (GetExtension (Options f)) as [[b]|e]; try congruence; try done.
Qed.

Lemma collect_length fields : (length (collect fields []) <= 1)%nat.
Proof. rewrite collect_first, length_take. lia. Qed.

Lemma collect_none fields :
  Forall (fun f => annotated f = false) fields -> collect fields [] = [].
Proof.
  induction 1 as [|f fields Hf _ IH]; simpl; [reflexivity|].
  unfold annotated in Hf.
  destruct (GetExtension (Options f)) as [[b]|e]; [discriminate | exact IH].
Qed.

Lemma collect_cases fields :
  collect fields [] = [] \/ exists f, collect fields [] = [f] /\ annotated f = true.
Proof.
  induction fields as [|f fields IH]; simpl; [by left|].
  destruct (GetExtension (Options f)) as [[b]|e] eqn:E; [|exact IH].
  right. exists f. split; [reflexivity|]. unfold annotated. by rewrite E.
Qed.

Section RedactFacts.

Implicit Types (l : loc) (h : heap) (m : gmap string string) (ks : list string).

Lemma redact_keys_structs r ks h : structs (redact_keys r ks h) = structs h.
Proof.
  destruct r as [l|]; simpl; [|reflexivity].
  revert h. induction ks as [|k ks IH]; intros h; simpl; [reflexivity|].
  by rewrite IH.
Qed.

Lemma redact_keys_maps l ks h :
  maps (redact_keys (Some l) ks h) = alter (fun m => foldl set_marker m ks) l (maps h).
Proof.
  simpl. revert h. induction ks as [|k ks IH]; intros h; simpl.
  - apply map_eq; intros i. rewrite lookup_alter.
    case_decide as Hi; [subst i; by destruct (maps h !! l)|reflexivity].
  - rewrite IH. simpl. apply map_eq; intros i.
    destruct (decide (l = i)) as [<-|Hi].
    + rewrite !lookup_alter_eq. by destruct (maps h !! l).
    + by rewrite !lookup_alter_ne.
Qed.

Lemma foldl_ins_lookup ks m k :
  foldl set_marker m ks !! k = if decide (k ∈ ks) then Some marker else m !! k.
Proof.
  revert m. induction ks as [|k' ks IH]; intros m.
  - rewrite decide_False; [reflexivity | apply not_elem_of_nil].
  - cbn [foldl]. rewrite IH. unfold set_marker.
    destruct (decide (k ∈ ks)) as [Hin|Hin].
    + rewrite decide_True; [reflexivity | by right].
    + destruct (decide (k = k')) as [->|Hne].
      * rewrite lookup_insert_eq. rewrite decide_True; [reflexivity | by left].
      * rewrite lookup_insert_ne by congruence.
        rewrite decide_False; [reflexivity|].
        intros [?|?]%elem_of_cons; tauto.
Qed.

(** Assigning the marker at every key of a map, in any order, is the map
    whose values are all the marker. *)
Lemma foldl_ins_keys ks m :
  (forall k, k ∈ ks <-> k ∈ dom m) ->
  foldl set_marker m ks = (fun _ => marker) <$> m.
Proof.
  intros Hks. apply map_eq; intros k.
  rewrite foldl_ins_lookup, lookup_fmap.
  destruct (decide (k ∈ ks)) as [Hin|Hin].
  - apply Hks, elem_of_dom in Hin as [v ->]. reflexivity.
  - rewrite (proj1 (not_elem_of_dom m k)); [reflexivity|].
    intros Hd. by apply Hin, Hks.
Qed.

(** The result of lines 190-192 does not depend on the order in which
    [range] visits the keys. *)
Lemma redact_keys_any_order l ks h :
  (forall k, k ∈ ks <-> k ∈ dom (default ∅ (maps h !! l))) ->
  redact_keys (Some l) ks h = redacted l h.
Proof.
  intros Hks. apply heap_eq.
  - by rewrite redact_keys_structs.
  - rewrite redact_keys_maps. simpl. apply map_eq; intros i.
    rewrite !lookup_alter. case_decide as Hi; [subst i|reflexivity].
    destruct (maps h !! l) as [m|] eqn:E; simpl; [|reflexivity].
    f_equal. apply foldl_ins_keys. exact Hks.
Qed.

Lemma range_keys_dom l h k :
  k ∈ range_keys (Some l) h <-> k ∈ dom (default ∅ (maps h !! l)).
Proof.
  unfold range_keys. rewrite elem_of_dom, list_elem_of_fmap. split.
  - intros [[k' v] [-> Hin]]. apply elem_of_map_to_list in Hin. by exists v.
  - intros [v Hv]. exists (k, v). split; [reflexivity|].
    by apply elem_of_map_to_list.
Qed.

Lemma redact_spec l h : redact (Some l) h = redacted l h.
Proof. apply redact_keys_any_order. intros k. apply range_keys_dom. Qed.

Lemma redact_nil h : redact None h = h.
Proof. reflexivity. Qed.

Lemma redact_structs r h : structs (redact r h) = structs h.
Proof. apply redact_keys_structs. Qed.

Lemma redact_other r l h : r <> Some l -> maps (redact r h) !! l = maps h !! l.
Proof.
  destruct r as [l'|]; [|reflexivity]. intros Hne.
  rewrite redact_spec. simpl. rewrite lookup_alter_ne; [reflexivity | congruence].
Qed.

Lemma redact_at l h :
  maps (redact (Some l) h) !! l = (fun m => (fun _ => marker) <$> m) <$> maps h !! l.
Proof. rewrite redact_spec. simpl. by rewrite lookup_alter_eq. Qed.

End RedactFacts.

Section FieldFacts.

Import Reflect.

Lemma set_field_same st name f :
  FieldByName st name = Some f -> set_field st name (Value f) = st.
Proof.
  induction st as [|g st IH]; simpl; [discriminate|].
  destruct (String.eqb (GoName g) name).
  - intros [= ->]. by destruct f.
  - intros H. by rewrite IH.
Qed.

(** Writing back the map that was read leaves the store as it is. *)
Lemma Set_same p name f st h :
  structs h !! p = Some st -> FieldByName st name = Some f ->
  Set_ p name (Value f) h = h.
Proof.
  intros Hp Hf. apply heap_eq; [|reflexivity]. simpl.
  apply map_eq; intros i. rewrite lookup_alter. case_decide; [subst i|reflexivity].
  rewrite Hp. simpl. by rewrite (set_field_same _ _ _ Hf).
Qed.

Lemma field_value_Some r field h v :
  field_value r field h = Some v ->
  exists fieldName st f,
    capitalize (GetName field) = Some fieldName /\
    Indirect r h = Some st /\
    FieldByName st fieldName = Some f /\
    GoStrings.IsExported fieldName = true /\
    Value f = v.
Proof.
  unfold field_value. intros H.
  destruct (capitalize (GetName field)) as [fieldName|]; [|discriminate].
  destruct (Indirect r h) as [st|]; [|discriminate]. simpl in H.
  destruct (FieldByName st fieldName) as [f|] eqn:Ef; [|discriminate].
  simpl in H. destruct (GoStrings.IsExported fieldName) eqn:Ex; [|discriminate].
  injection H as <-. by exists fieldName, st, f.
Qed.

Lemma sanitize_field_panics r field h :
  field_value r field h = None -> sanitize_field r field h = Panic h.
Proof.
  unfold field_value, sanitize_field.
  destruct (capitalize (GetName field)) as [fieldName|]; [|reflexivity].
  destruct (Indirect r h) as [st|]; [|reflexivity]. simpl.
  by intros ->.
Qed.

Lemma sanitize_field_string r field h s :
  field_value r field h = Some (VString s) -> sanitize_field r field h = Exit "" h.
Proof.
  unfold field_value, sanitize_field.
  destruct (capitalize (GetName field)) as [fieldName|]; [|discriminate].
  destruct (Indirect r h) as [st|]; [|discriminate]. simpl.
  by intros ->.
Qed.

Lemma sanitize_field_bool r field h b :
  field_value r field h = Some (VBool b) -> sanitize_field r field h = Exit "" h.
Proof.
  unfold field_value, sanitize_field.
  destruct (capitalize (GetName field)) as [fieldName|]; [|discriminate].
  destruct (Indirect r h) as [st|]; [|discriminate]. simpl.
  by intros ->.
Qed.

Lemma sanitize_field_map_value st field h m :
  field_value (ByValue st) field h = Some (VMap m) ->
  sanitize_field (ByValue st) field h = Panic (redact m h).
Proof.
  unfold field_value, sanitize_field.
  destruct (capitalize (GetName field)) as [fieldName|]; [|discriminate].
  simpl. by intros ->.
Qed.

Lemma sanitize_field_map_pointer p field h m :
  field_value (ByPointer p) field h = Some (VMap m) ->
  sanitize_field (ByPointer p) field h = Next (redact m h).
Proof.
  intros H. destruct (field_value_Some _ _ _ _ H) as (name & st & f & Hc & Hi & Hf & Hx & Hv).
  unfold field_value in H. unfold sanitize_field.
  rewrite Hc in *. rewrite Hi in *. simpl in H. rewrite H.
  destruct p as [p|]; [|discriminate]. simpl in Hi.
  rewrite redact_structs, Hi. simpl. rewrite Hf. simpl. rewrite Hx.
  f_equal. rewrite <- Hv. apply (Set_same _ _ _ st); [|exact Hf].
  by rewrite redact_structs.
Qed.

End FieldFacts.

Section SanitizeFacts.

Variable Sprintf_v : iface -> heap -> string.

Lemma SanitizeMsg_unfold pb h : SanitizeMsg Sprintf_v pb h = SanitizeMsg_cases Sprintf_v pb h.
Proof.
  destruct pb as [|md r]; [reflexivity|].
  unfold SanitizeMsg, SanitizeMsg_cases.
  destruct (GetField md) as [|f0 fields] eqn:Efs; [reflexivity|].
  cbv beta iota zeta.
  destruct (collect_cases (f0 :: fields)) as [E|(f & E & _)]; rewrite E;
    [reflexivity|].
  cbn [length Nat.eqb sanitize_fields].
  destruct (field_value r f h) as [[s|b|m]|] eqn:Ev.
  - by rewrite (sanitize_field_string _ _ _ _ Ev).
  - by rewrite (sanitize_field_bool _ _ _ _ Ev).
  - destruct r as [p|st].
    + by rewrite (sanitize_field_map_pointer _ _ _ _ Ev).
    + by rewrite (sanitize_field_map_value _ _ _ _ Ev).
  - by rewrite (sanitize_field_panics _ _ _ Ev).
Qed.

(** The store [SanitizeMsg] leaves behind. *)
Lemma SanitizeMsg_final pb h :
  final (SanitizeMsg Sprintf_v pb h) =
  match collected_value pb h with
  | Some (VMap m) => redact m h
  | _ => h
  end.
Proof.
  rewrite SanitizeMsg_unfold. destruct pb as [|md r]; [reflexivity|]. simpl.
  destruct (collect (GetField md) []) as [|f fs]; [reflexivity|]. simpl.
  destruct (field_value r f h) as [[s|b|m]|]; try reflexivity.
  by destruct r.
Qed.

(** A message held by pointer whose collected field holds a map is
    rendered in the store in which that map is redacted. *)
Lemma SanitizeMsg_returns_redacted_text md p h l :
  collected_value (Message md (ByPointer p)) h = Some (VMap (Some l)) ->
  SanitizeMsg Sprintf_v (Message md (ByPointer p)) h
  = Returns (Sprintf_v (Message md (ByPointer p)) (redacted l h)) (redacted l h).
Proof.
  intros Hv. rewrite SanitizeMsg_unfold. simpl in *.
  destruct (collect (GetField md) []) as [|f fs]; [discriminate|]. simpl in Hv.
  by rewrite Hv, redact_spec.
Qed.

End SanitizeFacts.

(** The request of the examples is printed with its volume id and with the
    marker at both keys of its secrets. *)
Example SanitizeMsg_publish_request :
  SanitizeMsg Text.CompactTextString Examples.publish_request Examples.publish_store
  = Returns
      ("volume_id:" ++ Text.quoted "vol-123" ++ " "
       ++ Text.entry "secrets" ("password", marker)
       ++ Text.entry "secrets" ("username", marker))
      (redacted 2%positive Examples.publish_store).
Proof.
  unfold Examples.publish_request.
  rewrite (SanitizeMsg_returns_redacted_text _ _ _ _ 2%positive) by reflexivity.
  f_equal.
Qed.

(* ===================================================================== *)
(** ** Properties of SanitizeMsg *)
(* ===================================================================== *)

Lemma fmap_marker_dom (m1 m2 : gmap string string) :
  dom m1 = dom m2 ->
  (fun _ => marker) <$> m1 = (fun _ : string => marker) <$> m2.
Proof.
  intros Hd. apply map_eq; intros k. rewrite !lookup_fmap.
  destruct (m1 !! k) as [v1|] eqn:E1.
  - assert (k ∈ dom m2) as [v2 ->]%elem_of_dom
      by (rewrite <- Hd; apply elem_of_dom; eauto).
    reflexivity.
  - assert (k ∉ dom m2) as ->%not_elem_of_dom
      by (rewrite <- Hd; by apply not_elem_of_dom).
    reflexivity.
Qed.

Lemma redacted_same_keys l h1 h2 : same_keys l h1 h2 -> redacted l h1 = redacted l h2.
Proof.
  intros (Hs & Ho & Hd). apply heap_eq; simpl; [exact Hs|].
  apply map_eq; intros i. destruct (decide (l = i)) as [<-|Hi].
  - rewrite !lookup_alter_eq.
    destruct (maps h1 !! l) as [m1|], (maps h2 !! l) as [m2|]; simpl in *;
      try discriminate; [|reflexivity].
    f_equal. apply fmap_marker_dom. congruence.
  - rewrite !lookup_alter_ne by exact Hi. apply Ho. congruence.
Qed.

Lemma collected_value_structs pb h1 h2 :
  structs h1 = structs h2 -> collected_value pb h1 = collected_value pb h2.
Proof.
  intros Hs. destruct pb as [|md r]; [reflexivity|]. simpl.
  destruct (head (collect (GetField md) [])) as [f|]; [|reflexivity]. simpl.
  unfold field_value. destruct (capitalize (GetName f)); [|reflexivity]. simpl.
  destruct r as [[p|]|st]; simpl; by rewrite ?Hs.
Qed.

Lemma collected_value_ByPointer md r h v :
  collected_value (Message md r) h = Some v ->
  exists f fs, collect (GetField md) [] = f :: fs /\ field_value r f h = Some v.
Proof.
  simpl. destruct (collect (GetField md) []) as [|f fs]; [discriminate|].
  simpl. intros H. by exists f, fs.
Qed.

(** C1, as amended: what [SanitizeMsg] returns does not depend on the values
    of the map held by the sensitive field that is collected.  In two stores
    that differ only in the values at the keys of that map, [SanitizeMsg]
    returns the same text and leaves the same store. *)
Theorem SanitizeMsg_independent_of_secret_values
    (Sprintf_v : iface -> heap -> string) (pb : iface) (l : loc) (h1 h2 : heap) :
  collected_value pb h1 = Some (VMap (Some l)) ->
  same_keys l h1 h2 ->
  SanitizeMsg Sprintf_v pb h1 = SanitizeMsg Sprintf_v pb h2.
Proof.
  intros Hv Hk.
  assert (collected_value pb h2 = Some (VMap (Some l))) as Hv2
    by (rewrite <- Hv; symmetry; apply collected_value_structs, Hk).
  rewrite !SanitizeMsg_unfold. destruct pb as [|md r]; [discriminate|].
  apply collected_value_ByPointer in Hv as (f & fs & Hc & Hf).
  apply collected_value_ByPointer in Hv2 as (f' & fs' & Hc' & Hf').
  rewrite Hc in Hc'. injection Hc' as <- <-.
  unfold SanitizeMsg_cases. rewrite Hc, Hf, Hf', !redact_spec.
  by rewrite (redacted_same_keys _ _ _ Hk).
Qed.

Lemma SanitizeMsg_independent_of_secret_values_witness :
  SanitizeMsg Text.CompactTextString Examples.publish_request Examples.publish_store =
  SanitizeMsg Text.CompactTextString Examples.publish_request Examples.other_store.
Proof.
  apply (SanitizeMsg_independent_of_secret_values _ _ 2%positive).
  - reflexivity.
  - split; [reflexivity|]. split.
    + intros l' Hl'. simpl. by rewrite !lookup_singleton_ne.
    + vm_compute. reflexivity.
Defined.

(** C1, as stated, fails: the credentials of this request are part of the
    text that is returned, because they also occur in the keys. *)
Lemma SanitizeMsg_output_contains_secret_value :
  exists out h',
    SanitizeMsg Text.CompactTextString Examples.publish_request Examples.weak_store
      = Returns out h' /\
    collected_value Examples.publish_request Examples.weak_store
      = Some (VMap (Some 2%positive)) /\
    (maps Examples.weak_store !! 2%positive) ≫= (fun m => m !! "password") = Some "pass" /\
    GoStrings.Contains out "pass" = true.
Proof.
  eexists. eexists. split; [vm_compute; reflexivity|].
  split; [reflexivity|]. split; vm_compute; reflexivity.
Qed.

(** C2: the collecting loop stops at the first annotated descriptor.  On a
    schema that annotates two fields only the first is collected, the map
    of the second keeps its values, and they are part of the returned text. *)
Theorem collect_stops_at_first_annotated_field :
  filter (fun f => annotated f = true) (GetField Examples.staged_schema)
    = [Examples.descr "secrets" Examples.secret_option;
       Examples.descr "credentials" Examples.secret_option] /\
  collect (GetField Examples.staged_schema) []
    = [Examples.descr "secrets" Examples.secret_option] /\
  exists out h',
    SanitizeMsg Text.CompactTextString Examples.staged_request Examples.staged_store
      = Returns out h' /\
    maps h' !! 3%positive = Some {[ "token" := "hunter2" ]} /\
    GoStrings.Contains out "hunter2" = true.
Proof.
  split; [reflexivity|]. split; [reflexivity|].
  eexists. eexists. split; [vm_compute; reflexivity|].
  split; vm_compute; reflexivity.
Qed.

(** C3, as amended: [SanitizeMsg] works on the message of the caller, not on
    a copy.  It leaves every struct and every map object as it was, except
    the map object held by the collected sensitive field, whose values are
    overwritten in place by the marker. *)
Theorem SanitizeMsg_redacts_in_place
    (Sprintf_v : iface -> heap -> string) (pb : iface) (h : heap) :
  let h' := final (SanitizeMsg Sprintf_v pb h) in
  structs h' = structs h /\
  (forall l, collected_value pb h <> Some (VMap (Some l)) ->
             maps h' !! l = maps h !! l) /\
  (forall l, collected_value pb h = Some (VMap (Some l)) ->
             maps h' !! l = (fun m => (fun _ => marker) <$> m) <$> maps h !! l).
Proof.
  cbv zeta. rewrite SanitizeMsg_final.
  destruct (collected_value pb h) as [[s|b|m]|]; repeat split; try done.
  - apply redact_structs.
  - intros l Hl. apply redact_other. congruence.
  - intros l [= ->]. apply redact_at.
Qed.

(** C3, as stated, fails: after the call the map of the request of the
    caller holds the marker where the password was. *)
Lemma SanitizeMsg_overwrites_caller_secrets :
  let h' := final (SanitizeMsg Text.CompactTextString
                     Examples.publish_request Examples.publish_store) in
  (maps Examples.publish_store !! 2%positive) ≫= (fun m => m !! "password") = Some "p@ss" /\
  (maps h' !! 2%positive) ≫= (fun m => m !! "password") = Some marker.
Proof. split; vm_compute; reflexivity. Qed.

(** When the sensitive field that [SanitizeMsg] reads (the collected
    descriptor, resolved to a Go field) holds a value that is not a
    [map[string]string], the call returns the empty string, without a panic
    and without a change to the store. *)
Lemma SanitizeMsg_malformed_collected_field
    (Sprintf_v : iface -> heap -> string) (pb : iface) (h : heap) (v : fvalue) :
  collected_value pb h = Some v ->
  (forall m, v <> VMap m) ->
  SanitizeMsg Sprintf_v pb h = Returns "" h.
Proof.
  intros Hv Hm. rewrite SanitizeMsg_unfold.
  destruct pb as [|md r]; [reflexivity|].
  apply collected_value_ByPointer in Hv as (f & fs & Hc & Hf).
  unfold SanitizeMsg_cases. rewrite Hc, Hf.
  destruct v as [s|b|m]; [reflexivity | reflexivity | by destruct (Hm m)].
Qed.

Example SanitizeMsg_malformed_collected_field_example :
  SanitizeMsg Text.CompactTextString
    (Message Examples.publish_schema (ByPointer (Some 1%positive)))
    Examples.malformed_store
  = Returns "" Examples.malformed_store.
Proof.
  apply (SanitizeMsg_malformed_collected_field _ _ _ (VString "p@ss")).
  - reflexivity.
  - intros m; discriminate.
Qed.

(** C4: a sensitive field that is not a [map[string]string] does not always
    give the empty string.  When its name has two words the lookup of the
    capitalised name fails and the call panics; when it comes after another
    annotated field it is never read, and the text that is returned holds
    its value next to the redacted map. *)
Theorem SanitizeMsg_malformed_field_not_absorbed :
  SanitizeMsg Text.CompactTextString Examples.node_request Examples.node_plain_store
    = Panics Examples.node_plain_store /\
  exists out h',
    SanitizeMsg Text.CompactTextString Examples.token_request Examples.token_store
      = Returns out h' /\
    out <> "" /\
    GoStrings.Contains out marker = true /\
    GoStrings.Contains out "hunter2" = true.
Proof.
  split; [vm_compute; reflexivity|].
  eexists. eexists. split; [vm_compute; reflexivity|].
  split; [discriminate|]. split; vm_compute; reflexivity.
Qed.

(** C5: [SanitizeMsg] panics when the capitalised descriptor name is not the
    name of a Go field.  The field generated for [node_secrets] is
    [NodeSecrets]; the lookup of [Node_secrets] yields the zero [Value], on
    which [Interface] panics. *)
Theorem SanitizeMsg_panics_on_field_lookup_failure :
  capitalize "node_secrets" = Some "Node_secrets" /\
  Reflect.FieldByName Examples.node_struct "Node_secrets" = None /\
  SanitizeMsg Text.CompactTextString Examples.node_request Examples.node_store
    = Panics Examples.node_store.
Proof. repeat split; vm_compute; reflexivity. Qed.

(** What the loop of lines 190-192 does to the map objects: after the call
    every map has the keys it had before, and it either is as it was or
    binds every key to the marker.  The map held by the collected field
    binds every key to the marker. *)
Lemma redaction_preserves_keys
    (Sprintf_v : iface -> heap -> string) (pb : iface) (h : heap)
    (l : loc) (m : gmap string string) :
  maps h !! l = Some m ->
  let h' := final (SanitizeMsg Sprintf_v pb h) in
  exists m', maps h' !! l = Some m' /\
             dom m' = dom m /\
             (m' = m \/ forall k, k ∈ dom m -> m' !! k = Some marker) /\
             (collected_value pb h = Some (VMap (Some l)) ->
              forall k, k ∈ dom m -> m' !! k = Some marker).
Proof.
  intros Hm. cbv zeta. rewrite SanitizeMsg_final.
  assert (forall k, k ∈ dom m -> ((fun _ => marker) <$> m) !! k = Some marker) as Hall.
  { intros k [v Hk]%elem_of_dom. by rewrite lookup_fmap, Hk. }
  destruct (decide (collected_value pb h = Some (VMap (Some l)))) as [Hv|Hv].
  - rewrite Hv. exists ((fun _ => marker) <$> m). rewrite redact_at, Hm.
    split; [reflexivity|]. split; [apply dom_fmap_L|]. split; [by right | done].
  - exists m. split; [|by split; [|split; [left|]]].
    destruct (collected_value pb h) as [[s|b|r]|]; try exact Hm.
    rewrite redact_other; [exact Hm | congruence].
Qed.

Lemma redaction_preserves_keys_witness :
  let h' := final (SanitizeMsg Text.CompactTextString
                     Examples.publish_request Examples.publish_store) in
  let m : gmap string string := {[ "username" := "alice"; "password" := "p@ss" ]} in
  exists m', maps h' !! 2%positive = Some m' /\
             dom m' = dom m /\
             (m' = m \/ forall k, k ∈ dom m -> m' !! k = Some marker) /\
             (collected_value Examples.publish_request Examples.publish_store
                = Some (VMap (Some 2%positive)) ->
              forall k, k ∈ dom m -> m' !! k = Some marker).
Proof.
  apply (redaction_preserves_keys Text.CompactTextString
           Examples.publish_request Examples.publish_store 2%positive).
  reflexivity.
Defined.

(** C6: key preservation with the marker at every key does not hold for
    every sensitive field that holds a map.  In the request with two
    annotated fields the map of [Credentials] keeps its keys and its value
    [hunter2] in the store the call leaves, because the collecting loop
    stops at [secrets]; in the request whose annotated field is
    [node_secrets] the call panics on the lookup of [Node_secrets], and the
    map of [NodeSecrets] keeps [p@ss]. *)
Theorem SanitizeMsg_leaves_sensitive_maps_unredacted :
  (Examples.descr "credentials" Examples.secret_option ∈ GetField Examples.staged_schema /\
   annotated (Examples.descr "credentials" Examples.secret_option) = true /\
   Value <$> Reflect.FieldByName Examples.staged_struct "Credentials"
     = Some (VMap (Some 3%positive)) /\
   maps Examples.staged_store !! 3%positive = Some {[ "token" := "hunter2" ]} /\
   exists out h',
     SanitizeMsg Text.CompactTextString Examples.staged_request Examples.staged_store
       = Returns out h' /\
     maps h' !! 3%positive = Some {[ "token" := "hunter2" ]} /\
     (maps h' !! 3%positive) ≫= (fun m => m !! "token") <> Some marker) /\
  (Examples.descr "node_secrets" Examples.secret_option ∈ GetField Examples.node_schema /\
   annotated (Examples.descr "node_secrets" Examples.secret_option) = true /\
   Value <$> Reflect.FieldByName Examples.node_struct "NodeSecrets"
     = Some (VMap (Some 2%positive)) /\
   maps Examples.node_store !! 2%positive = Some {[ "password" := "p@ss" ]} /\
   exists h',
     SanitizeMsg Text.CompactTextString Examples.node_request Examples.node_store
       = Panics h' /\
     maps h' !! 2%positive = Some {[ "password" := "p@ss" ]} /\
     (maps h' !! 2%positive) ≫= (fun m => m !! "password") <> Some marker).
Proof.
  split.
  - split; [by repeat constructor|]. split; [reflexivity|]. split; [reflexivity|].
    split; [reflexivity|]. eexists. eexists. split; [vm_compute; reflexivity|].
    split; [vm_compute; reflexivity|]. intros H. vm_compute in H. discriminate H.
  - split; [by repeat constructor|]. split; [reflexivity|]. split; [reflexivity|].
    split; [reflexivity|]. eexists. split; [vm_compute; reflexivity|].
    split; [vm_compute; reflexivity|]. intros H. vm_compute in H. discriminate H.
Qed.

Lemma call_times_nothing Sprintf_v pb h n :
  SanitizeMsg Sprintf_v pb h = Returns "" h ->
  call_times Sprintf_v n pb h = Returns (replicate n "") h.
Proof.
  intros H. induction n as [|n IH]; simpl; [reflexivity|].
  by rewrite H, IH.
Qed.

(** C7: on a value without schema, and on a message whose schema annotates
    no field, [SanitizeMsg] returns the empty string and leaves the store as
    it is; any number of successive calls all return the empty string. *)
Theorem SanitizeMsg_nothing_to_sanitize
    (Sprintf_v : iface -> heap -> string) (pb : iface) (h : heap) :
  no_sensitive_field pb ->
  SanitizeMsg Sprintf_v pb h = Returns "" h /\
  forall n, call_times Sprintf_v n pb h = Returns (replicate n "") h.
Proof.
  intros Hn.
  assert (SanitizeMsg Sprintf_v pb h = Returns "" h) as H.
  { rewrite SanitizeMsg_unfold. destruct pb as [|md r]; [reflexivity|].
    simpl in *. by rewrite (collect_none _ Hn). }
  split; [exact H|]. intros n. by apply call_times_nothing.
Qed.

Lemma SanitizeMsg_nothing_to_sanitize_witness :
  (SanitizeMsg Text.CompactTextString Examples.probe_request Examples.publish_store
     = Returns "" Examples.publish_store /\
   forall n, call_times Text.CompactTextString n Examples.probe_request Examples.publish_store
             = Returns (replicate n "") Examples.publish_store) /\
  (SanitizeMsg Text.CompactTextString NoDescriptor Examples.publish_store
     = Returns "" Examples.publish_store /\
   forall n, call_times Text.CompactTextString n NoDescriptor Examples.publish_store
             = Returns (replicate n "") Examples.publish_store).
Proof.
  split.
  - apply (SanitizeMsg_nothing_to_sanitize Text.CompactTextString Examples.probe_request).
    simpl. repeat constructor.
  - apply (SanitizeMsg_nothing_to_sanitize Text.CompactTextString NoDescriptor).
    exact I.
Defined.

(* ===================================================================== *)
(** ** Properties of getCredentialsFromSecret *)
(* ===================================================================== *)

Module CredentialsFacts.

Import Credentials.

Lemma foldl_store_entry_lookup (entries : list (string * list Byte.byte))
    (credentials : gmap string string) (key : string) :
  NoDup entries.*1 ->
  foldl store_entry credentials entries !! key =
  match (list_to_map entries : gmap string (list Byte.byte)) !! key with
  | Some value => Some (string_of_list_byte value)
  | None => credentials !! key
  end.
Proof.
  revert credentials. induction entries as [|[k v] entries IH]; intros credentials Hnd.
  - reflexivity.
  - rewrite fmap_cons in Hnd. apply NoDup_cons in Hnd as [Hk Hnd]. simpl in Hk.
    cbn [foldl]. rewrite IH by exact Hnd. rewrite list_to_map_cons.
    unfold store_entry. simpl.
    destruct (decide (k = key)) as [->|Hne].
    + rewrite lookup_insert_eq.
      rewrite (not_elem_of_list_to_map_1 (M:=gmap string) _ _ Hk).
      by rewrite lookup_insert_eq.
    + rewrite !lookup_insert_ne by exact Hne. reflexivity.
Qed.

(** The loop of lines 54-56 converts every value of [secret.Data]. *)
Lemma foldl_store_entry_fmap (data : gmap string (list Byte.byte)) :
  foldl store_entry ∅ (map_to_list data) = string_of_list_byte <$> data.
Proof.
  apply map_eq; intros key.
  rewrite foldl_store_entry_lookup by apply NoDup_fst_map_to_list.
  rewrite list_to_map_to_list, lookup_fmap.
  by destruct (data !! key).
Qed.

End CredentialsFacts.

(** C9: called with a reference, [getCredentialsFromSecret] returns a map
    that is not nil.  When the lookup fails the map is empty and the error of
    the lookup is returned with it; when it succeeds the error is nil, the
    keys of the map are the keys of [secret.Data] and each value is the
    string conversion of the bytes stored there. *)
Theorem getCredentialsFromSecret_returns_map
    (error : Type) (Get : string -> string -> Credentials.Secret + error)
    (ref : Credentials.SecretReference) :
  exists (credentials : gmap string string) (err : option error),
    Credentials.getCredentialsFromSecret error Get (Some ref)
      = Some (Some credentials, err) /\
    match Get (Credentials.Namespace ref) (Credentials.Name ref) with
    | inr e => err = Some e /\ credentials = ∅
    | inl secret =>
        err = None /\
        dom credentials = dom (Credentials.Data secret) /\
        forall key, credentials !! key
                    = string_of_list_byte <$> Credentials.Data secret !! key
    end.
Proof.
  unfold Credentials.getCredentialsFromSecret.
  destruct (Get (Credentials.Namespace ref) (Credentials.Name ref)) as [secret|e].
  - eexists. exists None. split; [reflexivity|].
    rewrite CredentialsFacts.foldl_store_entry_fmap.
    split; [reflexivity|]. split; [apply dom_fmap_L|].
    intros key. apply lookup_fmap.
  - exists ∅, (Some e). done.
Qed.

(** The only way not to return is the nil reference, which is dereferenced
    on line 49. *)
Lemma getCredentialsFromSecret_nil_reference
    (error : Type) (Get : string -> string -> Credentials.Secret + error) :
  Credentials.getCredentialsFromSecret error Get None = None.
Proof. reflexivity. Qed.

Example getCredentialsFromSecret_example :
  let secret := {| Credentials.Data := {[ "password" := [Byte.x70; Byte.x40; Byte.x73; Byte.x73] ]} |} in
  let Get := fun (ns name : string) =>
    if String.eqb name "db" then inl secret else inr "not found" in
  Credentials.getCredentialsFromSecret string Get
    (Some {| Credentials.Name := "db"; Credentials.Namespace := "default" |})
    = Some (Some {[ "password" := "p@ss" ]}, None) /\
  Credentials.getCredentialsFromSecret string Get
    (Some {| Credentials.Name := "cache"; Credentials.Namespace := "default" |})
    = Some (Some ∅, Some "not found").
Proof. split; vm_compute; reflexivity. Qed.

(* ===================================================================== *)
(** ** Facts about string concatenation *)
(* ===================================================================== *)

Module StringFacts.

Lemma append_cons (c : ascii) (s1 s2 : string) :
  String c s1 ++ s2 = String c (s1 ++ s2).
Proof. reflexivity. Qed.

Lemma append_nil_l (s : string) : EmptyString ++ s = s.
Proof. reflexivity. Qed.

Lemma append_nil_r (s : string) : s ++ EmptyString = s.
Proof. induction s as [|c s IH]; [reflexivity|]. by rewrite append_cons, IH. Qed.

Lemma append_assoc (s1 s2 s3 : string) : (s1 ++ s2) ++ s3 = s1 ++ (s2 ++ s3).
Proof. induction s1 as [|c s1 IH]; [reflexivity|]. by rewrite !append_cons, IH. Qed.

Lemma list_ascii_of_string_app (s1 s2 : string) :
  list_ascii_of_string (s1 ++ s2)
  = (list_ascii_of_string s1 ++ list_ascii_of_string s2)%list.
Proof.
  induction s1 as [|c s1 IH]; [reflexivity|].
  rewrite append_cons. cbn [list_ascii_of_string app]. by rewrite IH.
Qed.

Lemma string_of_list_ascii_app (l1 l2 : list ascii) :
  string_of_list_ascii (l1 ++ l2)%list
  = string_of_list_ascii l1 ++ string_of_list_ascii l2.
Proof.
  induction l1 as [|c l1 IH]; [reflexivity|].
  cbn [string_of_list_ascii app]. by rewrite append_cons, IH.
Qed.

End StringFacts.

(* ===================================================================== *)
(** ** Facts about path.Clean and path.Join *)
(* ===================================================================== *)

Module PathFacts.

Import Path StringFacts.
Local Open Scope char_scope.
Local Open Scope list_scope.

Lemma ends_element_app (Y Z : list ascii) :
  ends_element (Y ++ "/" :: Z) = ends_element Y.
Proof. destruct Y; reflexivity. Qed.

(** The loop reads a path up to a slash as it reads the path alone: what
    follows the slash is read from the state in which the first part ends. *)
Lemma clean_loop_slash_bounded (rooted : bool) (n : nat) :
  forall (Y Z : list ascii) (copying : bool) (st : cleaning),
    (length Y <= n)%nat ->
    clean_loop rooted (Y ++ "/" :: Z) copying st
    = clean_loop rooted Z false (clean_loop rooted Y copying st).
Proof.
  induction n as [|n IH]; intros Y Z copying st Hlen.
  - destruct Y; [reflexivity | simpl in Hlen; lia].
  - destruct Y as [|c Y]; [reflexivity|].
    simpl in Hlen. cbn [app clean_loop].
    destruct (Ascii.eqb c "/"); [apply IH; lia|].
    destruct copying; [apply IH; lia|].
    rewrite ends_element_app.
    destruct (Ascii.eqb c "." && ends_element Y); [apply IH; lia|].
    destruct Y as [|c2 Y]; [by destruct (Ascii.eqb c ".")|].
    cbn [app]. rewrite ends_element_app. simpl in Hlen.
    destruct (Ascii.eqb c "." && Ascii.eqb c2 "." && ends_element Y).
    + apply IH; lia.
    + apply (IH (c2 :: Y)); simpl; lia.
Qed.

Lemma clean_loop_slash rooted (Y Z : list ascii) copying st :
  clean_loop rooted (Y ++ "/" :: Z) copying st
  = clean_loop rooted Z false (clean_loop rooted Y copying st).
Proof. by apply (clean_loop_slash_bounded rooted (length Y)). Qed.

Lemma clean_state_slash (Y Z : list ascii) :
  Y <> [] ->
  clean_state (Y ++ "/" :: Z) = clean_loop (rooted Y) Z false (clean_state Y).
Proof.
  destruct Y as [|c Y]; [done|]. intros _. cbn [app clean_state rooted].
  destruct (Ascii.eqb c "/").
  - apply clean_loop_slash.
  - apply (clean_loop_slash false (c :: Y)).
Qed.

Lemma backtrack_keeps_root (buf : list ascii) :
  buf <> [] -> exists buf', backtrack (buf ++ ["/"]) 1 = buf' ++ ["/"].
Proof.
  induction buf as [|c buf IH]; [done|]. intros _. cbn [app backtrack].
  destruct ((1 <? length (buf ++ ["/"]))%nat && negb (Ascii.eqb c "/")) eqn:E.
  - apply IH. destruct buf; [|done]. discriminate.
  - by exists buf.
Qed.

Lemma dotdot_element_keeps_root st :
  keeps_root st -> keeps_root (dotdot_element true st).
Proof.
  intros [Hd [buf Hb]]. unfold dotdot_element. rewrite Hd, Hb.
  destruct (1 <? length (buf ++ ["/"]))%nat eqn:E; [|by split; [|exists buf]].
  split; [reflexivity|]. apply backtrack_keeps_root.
  destruct buf; [discriminate | done].
Qed.

Lemma start_element_keeps_root st :
  keeps_root st -> keeps_root (start_element true st).
Proof.
  intros [Hd [buf Hb]]. unfold start_element.
  destruct (_ || _); [|by split; [|exists buf]].
  split; [exact Hd|]. exists ("/" :: buf). simpl. by rewrite Hb.
Qed.

Lemma append_keeps_root c st : keeps_root st -> keeps_root (append c st).
Proof.
  intros [Hd [buf Hb]]. split; [exact Hd|]. exists (c :: buf). simpl. by rewrite Hb.
Qed.

Lemma clean_loop_keeps_root_bounded (n : nat) :
  forall (path : list ascii) (copying : bool) (st : cleaning),
    (length path <= n)%nat -> keeps_root st ->
    keeps_root (clean_loop true path copying st).
Proof.
  induction n as [|n IH]; intros path copying st Hlen Hst.
  - destruct path; [exact Hst | simpl in Hlen; lia].
  - destruct path as [|c path]; [exact Hst|]. simpl in Hlen. cbn [clean_loop].
    destruct (Ascii.eqb c "/"); [apply IH; [lia | exact Hst]|].
    destruct copying; [apply IH; [lia | by apply append_keeps_root]|].
    destruct (Ascii.eqb c "." && ends_element path); [apply IH; [lia | exact Hst]|].
    destruct path as [|c2 path].
    + by apply append_keeps_root, start_element_keeps_root.
    + simpl in Hlen.
      destruct (Ascii.eqb c "." && Ascii.eqb c2 "." && ends_element path).
      * apply IH; [lia | by apply dotdot_element_keeps_root].
      * apply IH; [simpl; lia | by apply append_keeps_root, start_element_keeps_root].
Qed.

Lemma clean_state_keeps_root (path : list ascii) :
  rooted path = true -> keeps_root (clean_state path).
Proof.
  destruct path as [|c path]; [discriminate|]. simpl. intros ->.
  apply (clean_loop_keeps_root_bounded (length path)); [lia|].
  split; [reflexivity|]. by exists [].
Qed.

Lemma clean_loop_copy rooted (e : list ascii) st :
  Forall (fun c => c <> "/") e ->
  clean_loop rooted e true st = {| out := rev e ++ out st; dotdot := dotdot st |}.
Proof.
  revert st. induction e as [|c e IH]; intros st He.
  - by destruct st.
  - apply Forall_cons in He as [Hc He]. cbn [clean_loop].
    apply Ascii.eqb_neq in Hc. rewrite Hc, IH by exact He.
    cbn [append out dotdot rev]. by rewrite <- app_assoc.
Qed.

Lemma clean_loop_plain rooted (e : list ascii) st :
  plain e ->
  clean_loop rooted e false st
  = {| out := rev e ++ out (start_element rooted st);
       dotdot := dotdot (start_element rooted st) |}.
Proof.
  destruct e as [|c e]; [done|]. intros [Hdot He].
  apply Forall_cons in He as [Hc He].
  apply Ascii.eqb_neq in Hc. apply Ascii.eqb_neq in Hdot.
  cbn [clean_loop]. rewrite Hc, Hdot. cbn [andb].
  assert (clean_loop rooted e true (append c (start_element rooted st))
          = {| out := rev (c :: e) ++ out (start_element rooted st);
               dotdot := dotdot (start_element rooted st) |}) as Hcopy.
  { rewrite clean_loop_copy by exact He.
    cbn [append out dotdot rev]. by rewrite <- app_assoc. }
  destruct e as [|c2 e]; exact Hcopy.
Qed.

Lemma Clean_child (Y e : string) :
  Y <> EmptyString -> plain (list_ascii_of_string e) ->
  Clean (Y ++ "/" ++ e) = (child_prefix Y ++ e)%string.
Proof.
  intros HY He. destruct Y as [|c Y]; [done|].
  unfold Clean. rewrite append_cons.
  rewrite <- append_cons, list_ascii_of_string_app.
  change (list_ascii_of_string ("/" ++ e))
    with ("/" :: list_ascii_of_string e).
  rewrite clean_state_slash by done.
  rewrite clean_loop_plain by exact He. cbn [out].
  destruct (list_ascii_of_string e) as [|ce le] eqn:Ee; [done|].
  rewrite length_app, length_rev. cbn [length Nat.add Nat.eqb].
  rewrite rev_app_distr, rev_involutive, string_of_list_ascii_app.
  unfold child_prefix. f_equal.
  by rewrite <- Ee, string_of_list_ascii_of_string.
Qed.

Lemma Clean_plain (e : string) : plain (list_ascii_of_string e) -> Clean e = e.
Proof.
  intros He. destruct e as [|c e]; [done|].
  unfold Clean, clean_state. cbn [list_ascii_of_string] in *.
  destruct He as [Hdot He]. pose proof He as He'.
  apply Forall_cons in He' as [Hc _]. apply Ascii.eqb_neq in Hc. rewrite Hc.
  rewrite clean_loop_plain by (split; done).
  cbn [out start_element length Nat.eqb andb orb negb].
  rewrite app_nil_r, length_rev. cbn [length Nat.eqb].
  rewrite rev_involutive.
  change (c :: list_ascii_of_string e) with (list_ascii_of_string (String c e)).
  apply string_of_list_ascii_of_string.
Qed.

Lemma child_prefix_cases (Y : string) :
  Y <> EmptyString ->
  (child_prefix Y = EmptyString /\ Clean Y = "."%string)
  \/ (child_prefix Y = "/"%string /\ Clean Y = "/"%string)
  \/ child_prefix Y = (Clean Y ++ "/")%string.
Proof.
  intros HY. unfold child_prefix, Clean. destruct Y as [|c Y]; [done|].
  set (l := list_ascii_of_string (String c Y)).
  set (st := clean_state l). cbv zeta.
  assert (forall buf : list ascii,
            string_of_list_ascii (rev ("/" :: buf))
            = (string_of_list_ascii (rev buf) ++ "/")%string) as Hsep.
  { intros buf. change (rev ("/" :: buf)) with (rev buf ++ ["/"]).
    by rewrite string_of_list_ascii_app. }
  unfold start_element. destruct (rooted l) eqn:Er.
  - destruct (clean_state_keeps_root l Er) as [_ [buf Hbuf]]. fold st in Hbuf.
    cbn [andb negb orb]. rewrite orb_false_r.
    assert ((length (out st) =? 0)%nat = false) as E0.
    { rewrite Hbuf, length_app. apply Nat.eqb_neq. simpl. lia. }
    rewrite E0.
    destruct (length (out st) =? 1)%nat eqn:E1; cbn [negb].
    + right; left. rewrite Hbuf in *. destruct buf as [|b buf]; [by split|].
      rewrite length_app in E1. simpl in E1. apply Nat.eqb_eq in E1. lia.
    + right; right. cbn [out]. apply Hsep.
  - cbn [andb negb orb].
    destruct (length (out st) =? 0)%nat eqn:E0; cbn [negb].
    + left. apply Nat.eqb_eq in E0. destruct (out st); [by split | discriminate].
    + right; right. cbn [out]. apply Hsep.
Qed.

Lemma Join_two (a b : string) :
  Join [a; b] = match joined a b with EmptyString => EmptyString | Y => Clean Y end.
Proof.
  destruct a as [|ca a]; [|reflexivity].
  destruct b as [|cb b]; reflexivity.
Qed.

Lemma Join_child (a b e : string) :
  plain (list_ascii_of_string e) -> Join [a; b; e] = (dir_prefix a b ++ e)%string.
Proof.
  intros He. unfold dir_prefix.
  assert (e <> EmptyString) as Hne by (intros ->; exact He).
  destruct a as [|ca a].
  - destruct b as [|cb b].
    + cbn [Join joined]. destruct e as [|ce e]; [done|].
      cbn [join_slash]. by rewrite Clean_plain.
    + cbn [Join joined join_slash]. by apply Clean_child.
  - cbn [Join joined join_slash].
    set (a' := String ca a).
    replace (a' ++ "/" ++ b ++ "/" ++ e)%string
      with ((a' ++ "/" ++ b) ++ "/" ++ e)%string
      by (by rewrite !append_assoc).
    assert (a' ++ "/" ++ b <> EmptyString)%string as HY by done.
    rewrite Clean_child by done.
    by destruct (a' ++ "/" ++ b)%string.
Qed.

Lemma dir_prefix_cases (a b : string) :
  (dir_prefix a b = EmptyString
   /\ (Join [a; b] = EmptyString \/ Join [a; b] = "."%string))
  \/ (dir_prefix a b = "/"%string /\ Join [a; b] = "/"%string)
  \/ dir_prefix a b = (Join [a; b] ++ "/")%string.
Proof.
  rewrite Join_two. unfold dir_prefix.
  destruct (joined a b) as [|c Y] eqn:E; [left; split; [|left]; reflexivity|].
  destruct (child_prefix_cases (String c Y)) as [ [-> ->] | [ [-> ->] | -> ] ]; [done|..].
  - left. split; [reflexivity | by right].
  - right; left. by split.
  - right; right. reflexivity.
Qed.

Lemma plain_dev : plain (list_ascii_of_string "dev").
Proof. split; [done|]. repeat constructor; done. Qed.

Lemma plain_data : plain (list_ascii_of_string "data").
Proof. split; [done|]. repeat constructor; done. Qed.

End PathFacts.

(** C10: for the same volume and host, [getVolumeDevicePluginDir] and
    [getVolumeDeviceDataDir] return the same text followed by [dev] and by
    [data].  That text is the directory of the host joined with the escaped
    volume identifier, followed by a slash; when that directory is the root
    it is the root itself, and when it is empty or is the current directory
    nothing precedes [dev] and [data]. *)
Theorem volume_device_dirs_share_prefix
    {H : Type} `{VolumeHost H} (csiPluginName : string)
    (EscapeQualifiedNameForDisk : string -> string)
    (specVolID : string) (host : H) :
  let dir := Path.Join [GetVolumeDevicePluginDir host csiPluginName;
                        EscapeQualifiedNameForDisk specVolID] in
  exists prefix : string,
    ((prefix = "" /\ (dir = "" \/ dir = "."))
     \/ (prefix = "/" /\ dir = "/")
     \/ prefix = dir ++ "/") /\
    getVolumeDevicePluginDir csiPluginName EscapeQualifiedNameForDisk specVolID host
      = prefix ++ "dev" /\
    getVolumeDeviceDataDir csiPluginName EscapeQualifiedNameForDisk specVolID host
      = prefix ++ "data".
Proof.
  cbv zeta. unfold getVolumeDevicePluginDir, getVolumeDeviceDataDir.
  set (a := GetVolumeDevicePluginDir host csiPluginName).
  set (b := EscapeQualifiedNameForDisk specVolID).
  exists (Path.dir_prefix a b). split; [apply PathFacts.dir_prefix_cases|].
  split.
  - apply PathFacts.Join_child, PathFacts.plain_dev.
  - apply PathFacts.Join_child, PathFacts.plain_data.
Qed.

Example volume_device_dirs_example :
  getVolumeDevicePluginDir (H0 := kubelet_host) "kubernetes.io/csi" (fun s => s)
    "pv-1" "/var/lib/kubelet"
    = "/var/lib/kubelet/plugins/kubernetes.io/csi/volumeDevices/pv-1/dev" /\
  getVolumeDeviceDataDir (H0 := kubelet_host) "kubernetes.io/csi" (fun s => s)
    "pv-1" "/var/lib/kubelet"
    = "/var/lib/kubelet/plugins/kubernetes.io/csi/volumeDevices/pv-1/data".
Proof. split; vm_compute; reflexivity. Qed.

(* ===================================================================== *)
(** ** Facts about the JSON encoding of maps of strings *)
(* ===================================================================== *)

Module JsonFacts.

Import Json StringFacts.

Lemma scan_app esc s1 s2 : scan esc (s1 ++ s2) = scan esc s1 ≫= fun esc' => scan esc' s2.
Proof.
  revert esc. induction s1 as [|c s1 IH]; intros esc; [reflexivity|].
  rewrite append_cons. cbn [scan].
  destruct esc; [apply IH|].
  destruct (Ascii.eqb c backslash); [apply IH|].
  destruct (Ascii.eqb c quote); [reflexivity | apply IH].
Qed.

Lemma scan_escape c : (code c <? 128)%N = true -> scan false (escape c) = Some false.
Proof.
  destruct c as [[] [] [] [] [] [] [] []]; intros Hc;
    first [discriminate Hc | vm_compute; reflexivity].
Qed.

Lemma high_not_special c :
  (code c <? 128)%N = false ->
  Ascii.eqb c backslash = false /\ Ascii.eqb c quote = false /\ (code c <? 32)%N = false.
Proof.
  destruct c as [[] [] [] [] [] [] [] []]; intros Hc;
    first [discriminate Hc | vm_compute; repeat split].
Qed.

Lemma between_high lo hi c :
  (128 <=? lo)%N = true -> between lo hi c = true -> (code c <? 128)%N = false.
Proof.
  unfold between. intros Hlo [H1 _]%andb_prop.
  apply N.leb_le in Hlo, H1. apply N.ltb_ge. lia.
Qed.

Lemma scan_hex_digit b X :
  scan false (String (hex (code b mod 16)) X) = scan false X.
Proof. destruct b as [[] [] [] [] [] [] [] []]; reflexivity. Qed.

Lemma scan_high c X : (code c <? 128)%N = false -> scan false (String c X) = scan false X.
Proof.
  intros Hc. destruct (high_not_special c Hc) as (Hb & Hq & _).
  cbn [scan]. by rewrite Hb, Hq.
Qed.

(** The scanner passes over an encoded string without meeting a quote and
    ends outside of an escape. *)
Lemma scan_encode s : forall skip copy,
  valid_bytes skip s = true -> scan false (encode_bytes skip copy s) = Some false.
Proof.
  induction s as [|c rest IH]; intros skip copy Hv; [reflexivity|].
  destruct skip as [|skip].
  - cbn [encode_bytes valid_bytes] in *.
    destruct (code c <? 128)%N eqn:Hc.
    + rewrite scan_app, scan_escape by exact Hc. apply IH, Hv.
    + destruct (rune_len (String c rest)) as [|n]; [discriminate|].
      destruct (line_separator (String c rest)) as [b2|].
      * rewrite scan_app.
        change (scan false (String backslash "u202")) with (Some false).
        cbn [mbind option_bind]. rewrite append_cons, scan_hex_digit.
        apply IH, Hv.
      * rewrite scan_high by exact Hc. apply IH, Hv.
  - cbn [encode_bytes valid_bytes] in *. apply andb_prop in Hv as [Hc Hv].
    destruct copy; [|apply IH, Hv].
    rewrite scan_high by (by eapply between_high; [|exact Hc]). apply IH, Hv.
Qed.

Lemma unquote_escape c X :
  (code c <? 128)%N = true ->
  unquote_bytes 0 (escape c ++ X) = String c <$> unquote_bytes 0 X.
Proof.
  destruct c as [[] [] [] [] [] [] [] []]; intros Hc;
    first [discriminate Hc | reflexivity].
Qed.

Lemma byte_code c : byte (code c) = c.
Proof. apply ascii_N_embedding. Qed.

Lemma line_separator_Some s b2 :
  line_separator s = Some b2 ->
  exists r, s = String (byte 226) (String (byte 128) (String b2 r))
            /\ between 168 169 b2 = true.
Proof.
  destruct s as [|b0 [|b1 [|b2' r]]]; try discriminate. cbn [line_separator].
  destruct (code b0 =? 226)%N eqn:E0; [|discriminate].
  destruct (code b1 =? 128)%N eqn:E1; [|discriminate].
  destruct (between 168 169 b2') eqn:E2; [|discriminate].
  intros [= <-]. exists r. split; [|exact E2].
  apply N.eqb_eq in E0, E1.
  by rewrite <- (byte_code b0), <- (byte_code b1), E0, E1.
Qed.

Lemma unquote_separator b2 X :
  between 168 169 b2 = true ->
  unquote_bytes 0 (String backslash "u202" ++ String (hex (code b2 mod 16)) EmptyString ++ X)
  = String.append (String (byte 226) (String (byte 128) (String b2 EmptyString)))
      <$> unquote_bytes 0 X.
Proof.
  destruct b2 as [[] [] [] [] [] [] [] []]; intros Hc;
    first [discriminate Hc | reflexivity].
Qed.

Lemma rune_len_separator b2 r :
  between 168 169 b2 = true ->
  rune_len (String (byte 226) (String (byte 128) (String b2 r))) = 3.
Proof.
  destruct b2 as [[] [] [] [] [] [] [] []]; intros Hc;
    first [discriminate Hc | reflexivity].
Qed.

(** The encoder copies a well-formed rune as it is, so the decoder finds
    the same rune. *)
Lemma rune_len_encode c rest n :
  rune_len (String c rest) = S n ->
  rune_len (String c (encode_bytes n true rest)) = S n.
Proof.
  unfold rune_len. destruct rest as [|b1 rest]; [discriminate|].
  destruct (between 194 223 c).
  { destruct (between 128 191 b1) eqn:E1; [|discriminate].
    intros [= <-]. cbn [encode_bytes]. by rewrite E1. }
  destruct (between 224 239 c).
  { destruct (between _ _ b1) eqn:E1; [|discriminate].
    destruct rest as [|b2 rest]; [discriminate|].
    destruct (between 128 191 b2) eqn:E2; [|discriminate].
    intros [= <-]. cbn [encode_bytes]. by rewrite E1, E2. }
  destruct (between 240 244 c); [|discriminate].
  destruct (between _ _ b1) eqn:E1; [|discriminate].
  destruct rest as [|b2 [|b3 rest]]; try discriminate.
  destruct (between 128 191 b2 && between 128 191 b3) eqn:E2; [|discriminate].
  intros [= <-]. cbn [encode_bytes]. by rewrite E1, E2.
Qed.

(** Unquoting what the encoder wrote for a well-formed string gives the
    string back. *)
Lemma unquote_encode s : forall skip,
  valid_bytes skip s = true ->
  unquote_bytes skip (encode_bytes skip true s) = Some s /\
  unquote_bytes 0 (encode_bytes skip false s) = Some (string_drop skip s).
Proof.
  induction s as [|c rest IH]; intros skip Hv.
  { by destruct skip. }
  destruct skip as [|skip].
  - assert (unquote_bytes 0 (encode_bytes 0 true (String c rest)) = Some (String c rest))
      as Hgoal; [|by split].
    cbn [encode_bytes valid_bytes] in *.
    destruct (code c <? 128)%N eqn:Hc.
    + rewrite unquote_escape by exact Hc.
      by rewrite (proj1 (IH 0%nat Hv)).
    + destruct (rune_len (String c rest)) as [|n] eqn:Hn; [discriminate|].
      destruct (line_separator (String c rest)) as [b2|] eqn:Hsep.
      * apply line_separator_Some in Hsep as (r & Hs & Hb2).
        injection Hs as -> ->.
        rewrite rune_len_separator in Hn by exact Hb2. injection Hn as <-.
        rewrite unquote_separator by exact Hb2.
        by rewrite (proj2 (IH 2%nat Hv)).
      * destruct (high_not_special c Hc) as (Hb & Hq & Hl).
        cbn [unquote_bytes]. rewrite Hb, Hq, Hl, Hc. cbn [orb].
        rewrite (rune_len_encode _ _ _ Hn).
        by rewrite (proj1 (IH n Hv)).
  - cbn [encode_bytes valid_bytes unquote_bytes string_drop] in *.
    apply andb_prop in Hv as [Hc Hv]. split.
    + by rewrite (proj1 (IH skip Hv)).
    + apply (IH skip Hv).
Qed.

Lemma unquote_encode_string s :
  ValidString s = true -> unquote (encode_bytes 0 true s) = Some s.
Proof. intros Hv. apply (unquote_encode s 0 Hv). Qed.

Lemma snoc_app raw c s : snoc raw c ++ s = raw ++ String c s.
Proof. unfold snoc. by rewrite append_assoc. Qed.

Lemma run_key_scan s : forall raw esc esc' m T,
  scan esc s = Some esc' ->
  run (SKey raw esc m) (s ++ T) = run (SKey (raw ++ s) esc' m) T.
Proof.
  induction s as [|c s IH]; intros raw esc esc' m T Hs.
  - injection Hs as <-. by rewrite append_nil_r.
  - rewrite append_cons. cbn [run step scan] in *. rewrite <- snoc_app.
    destruct esc; [by apply IH|].
    destruct (Ascii.eqb c backslash); [by apply IH|].
    destruct (Ascii.eqb c quote); [discriminate | by apply IH].
Qed.

Lemma run_str_scan s : forall key raw esc esc' m T,
  scan esc s = Some esc' ->
  run (SStr key raw esc m) (s ++ T) = run (SStr key (raw ++ s) esc' m) T.
Proof.
  induction s as [|c s IH]; intros key raw esc esc' m T Hs.
  - injection Hs as <-. by rewrite append_nil_r.
  - rewrite append_cons. cbn [run step scan] in *. rewrite <- snoc_app.
    destruct esc; [by apply IH|].
    destruct (Ascii.eqb c backslash); [by apply IH|].
    destruct (Ascii.eqb c quote); [discriminate | by apply IH].
Qed.

Lemma run_done r T : run (SDone r) T = SDone r.
Proof. induction T as [|c T IH]; [reflexivity | exact IH]. Qed.

(** Reading the key literal the encoder wrote for a well-formed key. *)
Lemma run_key_literal key m T :
  ValidString key = true ->
  run (SKey EmptyString false m) (encode_bytes 0 true key ++ String quote T)
  = run (SColon key m) T.
Proof.
  intros Hv.
  rewrite (run_key_scan _ _ _ false) by (by apply scan_encode).
  cbn [run step]. change (Ascii.eqb quote backslash) with false.
  change (Ascii.eqb quote quote) with true. cbv iota.
  rewrite append_nil_l. by rewrite unquote_encode_string.
Qed.

Lemma run_str_literal key value m T :
  ValidString value = true ->
  run (SStr key EmptyString false m) (encode_bytes 0 true value ++ String quote T)
  = run (SNext (<[key := value]> m)) T.
Proof.
  intros Hv.
  rewrite (run_str_scan _ _ _ _ false) by (by apply scan_encode).
  cbn [run step]. change (Ascii.eqb quote backslash) with false.
  change (Ascii.eqb quote quote) with true. cbv iota.
  rewrite append_nil_l. by rewrite unquote_encode_string.
Qed.

Lemma encode_members_cons kv rest :
  encode_members (kv :: rest)
  = encode_member kv ++ match rest with [] => EmptyString | _ => "," ++ encode_members rest end.
Proof.
  destruct rest as [|kv' rest]; cbn [encode_members]; unfold encode_member.
  - by rewrite append_nil_r.
  - by rewrite !append_assoc.
Qed.

Lemma run_member st m kv T :
  expects_key st m ->
  ValidString kv.1 = true -> ValidString kv.2 = true ->
  run st (encode_member kv ++ T) = run (SNext (<[kv.1 := kv.2]> m)) T.
Proof.
  intros Hst Hk Hv. unfold encode_member, encode_string.
  repeat (rewrite append_cons || rewrite append_assoc || rewrite append_nil_l).
  assert (run st (String quote (encode_bytes 0 true kv.1 ++
            String quote (String ":" (String quote (encode_bytes 0 true kv.2 ++ String quote T)))))
          = run (SKey EmptyString false m) (encode_bytes 0 true kv.1 ++
            String quote (String ":" (String quote (encode_bytes 0 true kv.2 ++ String quote T)))))
    as ->.
  { destruct Hst as [-> | ->]; reflexivity. }
  rewrite run_key_literal by exact Hk.
  cbn [run step]. change (isSpace ":") with false. change (Ascii.eqb ":" ":") with true.
  cbv iota. change (isSpace quote) with false. change (Ascii.eqb quote quote) with true.
  cbv iota. by apply run_str_literal.
Qed.

(** Reading the members the encoder wrote, up to the closing brace. *)
Lemma run_members entries : forall st m T,
  entries <> [] -> expects_key st m -> Forall valid_entry entries ->
  run st (encode_members entries ++ String "}" T)
  = SDone (Some (foldl insert_entry m entries)).
Proof.
  induction entries as [|kv rest IH]; intros st m T Hne Hst Hv; [done|].
  apply Forall_cons in Hv as [[Hk Hvl] Hv].
  rewrite encode_members_cons, append_assoc.
  rewrite (run_member st m) by done.
  destruct rest as [|kv' rest].
  - rewrite append_nil_l. cbn [run step foldl].
    change (isSpace "}") with false. change (Ascii.eqb "}" ",") with false.
    change (Ascii.eqb "}" "}") with true. cbv iota. apply run_done.
  - rewrite append_assoc.
    change ("," ++ encode_members (kv' :: rest) ++ String "}" T)
      with (String "," (encode_members (kv' :: rest) ++ String "}" T)).
    cbn [run step]. change (isSpace ",") with false.
    change (Ascii.eqb "," ",") with true. cbv iota.
    cbn [foldl]. apply IH; [done | by right | exact Hv].
Qed.

Lemma foldl_insert_entry_lookup (entries : list (string * string))
    (m : gmap string string) (key : string) :
  NoDup entries.*1 ->
  foldl insert_entry m entries !! key =
  match (list_to_map entries : gmap string string) !! key with
  | Some value => Some value
  | None => m !! key
  end.
Proof.
  revert m. induction entries as [|[k v] entries IH]; intros m Hnd; [reflexivity|].
  rewrite fmap_cons in Hnd. apply NoDup_cons in Hnd as [Hk Hnd]. simpl in Hk.
  cbn [foldl]. rewrite IH by exact Hnd. rewrite list_to_map_cons.
  unfold insert_entry. simpl.
  destruct (decide (k = key)) as [->|Hne].
  - rewrite lookup_insert_eq.
    rewrite (not_elem_of_list_to_map_1 (M:=gmap string) _ _ Hk).
    by rewrite lookup_insert_eq.
  - by rewrite !lookup_insert_ne.
Qed.

(** Inserting the entries of a map, in any order, builds that map. *)
Lemma foldl_insert_entry_map (m : gmap string string) (entries : list (string * string)) :
  entries ≡ₚ map_to_list m -> foldl insert_entry ∅ entries = m.
Proof.
  intros Hp.
  assert (NoDup entries.*1) as Hnd.
  { rewrite Hp. apply NoDup_fst_map_to_list. }
  apply map_eq; intros key. rewrite foldl_insert_entry_lookup by exact Hnd.
  rewrite (list_to_map_proper (M:=gmap string) entries (map_to_list m) Hnd Hp).
  rewrite list_to_map_to_list, lookup_empty. by destruct (m !! key).
Qed.

(** Decoding what [Encode] wrote for a map of well-formed strings gives the
    map back. *)
Lemma Decode_Encode (data : gomap) : valid_map data -> Decode (Encode data) = Some data.
Proof.
  intros Hv. unfold Decode, Encode. destruct data as [m|]; [|reflexivity].
  unfold Marshal.
  set (entries := merge_sort GoStrings.key_le (map_to_list m)).
  assert (entries ≡ₚ map_to_list m) as Hp by apply merge_sort_Permutation.
  assert (Forall valid_entry entries) as Hall.
  { apply Forall_forall. intros [k v] Hin. rewrite Hp in Hin.
    apply elem_of_map_to_list in Hin. by apply Hv. }
  repeat (rewrite append_cons || rewrite append_assoc || rewrite append_nil_l).
  cbn [run step].
  change (isSpace "{") with false. change (Ascii.eqb "{" "{") with true. cbv iota.
  destruct entries as [|kv rest] eqn:E.
  - apply Permutation_nil_l in Hp. symmetry in Hp.
    apply map_to_list_empty_iff in Hp as ->. reflexivity.
  - rewrite (run_members _ (SOpen ∅) ∅) by (done || by left).
    by rewrite (foldl_insert_entry_map m).
Qed.

Lemma valid_mapb_valid_map (data : gomap) : valid_mapb data = true -> valid_map data.
Proof.
  destruct data as [m|]; [|done]. simpl. intros Hall key value Hkv.
  rewrite forallb_forall in Hall.
  specialize (Hall (key, value)). simpl in Hall.
  apply andb_prop, Hall, list_elem_of_In, elem_of_map_to_list, Hkv.
Qed.

End JsonFacts.

(** C8, as amended: when the keys and the values of the map are well-formed
    UTF-8 and [saveVolumeData] returns no error, [loadVolumeData] of the
    same directory and file name returns the map that was saved, and no
    error. *)
Theorem loadVolumeData_after_saveVolumeData
    (dir fileName : string) (data : gomap) (fs fs' : OS.filesystem) :
  Json.valid_mapb data = true ->
  saveVolumeData dir fileName data fs = (None, fs') ->
  loadVolumeData dir fileName fs' = (data, None).
Proof.
  intros Hv%JsonFacts.valid_mapb_valid_map. unfold saveVolumeData, loadVolumeData.
  set (name := Path.Join [dir; fileName]).
  unfold OS.Create, OS.Write, OS.Open.
  destruct (OS.creatable fs name); [|discriminate]. cbn [OS.room].
  destruct (String.length (Json.Encode data) <=? OS.room fs)%nat; [|discriminate].
  intros [= <-]. cbn [OS.files]. rewrite lookup_insert_eq.
  by rewrite JsonFacts.Decode_Encode.
Qed.

Lemma loadVolumeData_after_saveVolumeData_witness :
  loadVolumeData "/var/lib/kubelet/plugins/pv-1" "vol_data.json"
    (saveVolumeData "/var/lib/kubelet/plugins/pv-1" "vol_data.json"
       (Some {[ "driverName" := "csi.example.com"; "volumeHandle" := "vol-123" ]})
       scratch_disk).2
  = (Some {[ "driverName" := "csi.example.com"; "volumeHandle" := "vol-123" ]}, None).
Proof.
  apply (loadVolumeData_after_saveVolumeData _ _ _ scratch_disk).
  - vm_compute. reflexivity.
  - vm_compute. reflexivity.
Defined.

(** C8, as stated, fails: a value that is not well-formed UTF-8 is saved
    without error, and what is loaded has U+FFFD in the place of the byte
    0xFF. *)
Lemma loadVolumeData_replaces_invalid_bytes :
  let data : gomap := Some {[ "nodeID" := String (Json.byte 255) EmptyString ]} in
  exists fs',
    saveVolumeData "/var/lib/kubelet/plugins/pv-1" "vol_data.json" data scratch_disk
      = (None, fs') /\
    loadVolumeData "/var/lib/kubelet/plugins/pv-1" "vol_data.json" fs'
      = (Some {[ "nodeID" := Json.replacement ]}, None) /\
    (Some {[ "nodeID" := Json.replacement ]} : gomap) <> data.
Proof.
  cbv zeta. eexists. split; [vm_compute; reflexivity|].
  split; [vm_compute; reflexivity|].
  intros Heq.
  apply (f_equal (fun d : gomap => d ≫= fun m => m !! "nodeID")) in Heq.
  vm_compute in Heq. discriminate Heq.
Qed.

(* ===================================================================== *)
(** ** Further properties of SanitizeMsg *)
(* ===================================================================== *)

Lemma field_value_structs r f h1 h2 :
  structs h1 = structs h2 -> field_value r f h1 = field_value r f h2.
Proof.
  intros Hs. unfold field_value. destruct (capitalize (GetName f)); [|reflexivity]. simpl.
  destruct r as [[p|]|st]; simpl; by rewrite ?Hs.
Qed.

Lemma redact_idempotent m h : redact m (redact m h) = redact m h.
Proof.
  destruct m as [l|]; [|reflexivity]. rewrite !redact_spec.
  apply heap_eq; [reflexivity|]. simpl. apply map_eq; intros i.
  destruct (decide (l = i)) as [<-|Hi].
  - rewrite !lookup_alter_eq. destruct (maps h !! l) as [m|]; [|reflexivity]. simpl.
    f_equal. apply map_eq; intros k. rewrite !lookup_fmap. by destruct (m !! k).
  - by rewrite !lookup_alter_ne.
Qed.

Lemma collect_annotated fields :
  Exists (fun f => annotated f = true) fields -> collect fields [] <> [].
Proof.
  induction 1 as [f fields Hf|f fields _ IH]; simpl.
  - unfold annotated in Hf. by destruct (GetExtension (Options f)) as [[b]|e].
  - by destruct (GetExtension (Options f)) as [[b]|e].
Qed.

(** X1: [SanitizeMsg] is idempotent.  A second call on the same message, in
    the store the first call left, has the outcome of the first call: the
    same text or the same panic, and the store stays as the first call left
    it. *)
Theorem SanitizeMsg_idempotent
    (Sprintf_v : iface -> heap -> string) (pb : iface) (h : heap) :
  SanitizeMsg Sprintf_v pb (final (SanitizeMsg Sprintf_v pb h)) = SanitizeMsg Sprintf_v pb h.
Proof.
  rewrite !SanitizeMsg_unfold. destruct pb as [|md r]; [reflexivity|]. simpl.
  destruct (collect (GetField md) []) as [|f fs]; [reflexivity|].
  destruct (field_value r f h) as [[s|b|m]|] eqn:Ev; simpl; try by rewrite Ev.
  assert (field_value r f (redact m h) = Some (VMap m)) as Ev'.
  { rewrite <- Ev. apply field_value_structs, redact_structs. }
  destruct r as [p|st]; simpl; by rewrite Ev', redact_idempotent.
Qed.

(** X2: the loop of lines 190-192 does not depend on the order in which
    [range] visits the keys of the map: whatever the order, the store it
    leaves is the same. *)
Theorem redact_keys_order_independent (m : option loc) (keys : list string) (h : heap) :
  keys ≡ₚ range_keys m h -> redact_keys m keys h = redact m h.
Proof.
  intros Hp. destruct m as [l|]; [|reflexivity].
  rewrite redact_spec. apply redact_keys_any_order. intros k.
  rewrite Hp. apply range_keys_dom.
Qed.

Lemma redact_keys_order_independent_witness :
  redact_keys (Some 2%positive) (reverse (range_keys (Some 2%positive) Examples.publish_store))
    Examples.publish_store
  = redact (Some 2%positive) Examples.publish_store.
Proof.
  apply (redact_keys_order_independent (Some 2%positive)).
  apply reverse_Permutation.
Defined.

(** X3: when [SanitizeMsg] returns, either it returns the empty string and
    has changed nothing, or it returns the text of the message in the store
    it leaves.  The return of line 196, which would give the empty string
    after the map was overwritten, is never taken: a field whose value was
    read on line 186 can be set. *)
Theorem SanitizeMsg_returns_empty_or_rendering
    (Sprintf_v : iface -> heap -> string) (pb : iface) (h : heap) (s : string) (h' : heap) :
  SanitizeMsg Sprintf_v pb h = Returns s h' ->
  (s = "" /\ h' = h) \/ s = Sprintf_v pb h'.
Proof.
  rewrite SanitizeMsg_unfold. destruct pb as [|md r]; simpl.
  { intros [= <- <-]. by left. }
  destruct (collect (GetField md) []) as [|f fs].
  { intros [= <- <-]. by left. }
  destruct (field_value r f h) as [[v|b|m]|]; try (intros [= <- <-]; by left).
  destruct r as [p|st]; [|discriminate]. intros [= <- <-]. by right.
Qed.

Lemma SanitizeMsg_returns_empty_or_rendering_witness :
  (Text.CompactTextString Examples.publish_request (redacted 2%positive Examples.publish_store) = ""
   /\ redacted 2%positive Examples.publish_store = Examples.publish_store)
  \/ Text.CompactTextString Examples.publish_request (redacted 2%positive Examples.publish_store)
     = Text.CompactTextString Examples.publish_request (redacted 2%positive Examples.publish_store).
Proof.
  apply (SanitizeMsg_returns_empty_or_rendering Text.CompactTextString
           Examples.publish_request Examples.publish_store).
  apply (SanitizeMsg_returns_redacted_text _ _ _ _ 2%positive). reflexivity.
Defined.

(** X4: a nil pointer to a message whose schema annotates a field makes
    [SanitizeMsg] panic, in the store as it was: the type assertions succeed
    and line 186 looks up a field in the zero [Value]. *)
Theorem SanitizeMsg_nil_message_panics
    (Sprintf_v : iface -> heap -> string) (md : DescriptorProto) (h : heap) :
  Exists (fun f => annotated f = true) (GetField md) ->
  SanitizeMsg Sprintf_v (Message md (ByPointer None)) h = Panics h.
Proof.
  intros Hex%collect_annotated. rewrite SanitizeMsg_unfold. simpl.
  destruct (collect (GetField md) []) as [|f fs]; [done|].
  assert (field_value (ByPointer None) f h = None) as ->; [|reflexivity].
  unfold field_value. by destruct (capitalize (GetName f)).
Qed.

Lemma SanitizeMsg_nil_message_panics_witness :
  SanitizeMsg Text.CompactTextString (Message Examples.publish_schema (ByPointer None))
    Examples.publish_store
  = Panics Examples.publish_store.
Proof.
  apply SanitizeMsg_nil_message_panics.
  simpl. apply Exists_cons_tl, Exists_cons_hd. reflexivity.
Defined.

(** X5: the loop of lines 165-174 collects the first descriptor whose
    options carry the [csi_secret] extension, whatever the value of the
    extension ([false] as well as [true]) and whatever descriptors follow. *)
Theorem collect_takes_first_annotated
    (before after : list FieldDescriptorProto) (f : FieldDescriptorProto) (b : bool) :
  Forall (fun g => annotated g = false) before ->
  Options f = Some {| csi_secret := Some b |} ->
  collect (before ++ f :: after)%list [] = [f].
Proof.
  intros Hb Hf. induction Hb as [|g before Hg _ IH]; simpl.
  - by rewrite Hf.
  - unfold annotated in Hg. by destruct (GetExtension (Options g)) as [[b']|e].
Qed.

Lemma collect_takes_first_annotated_witness :
  collect ([Examples.descr "volume_id" None]
           ++ Examples.descr "secrets" (Some {| csi_secret := Some false |})
           :: [Examples.descr "credentials" Examples.secret_option])%list []
  = [Examples.descr "secrets" (Some {| csi_secret := Some false |})].
Proof.
  apply (collect_takes_first_annotated _ _ _ false).
  - repeat constructor.
  - reflexivity.
Defined.

(** X6: on a message that is held by value and whose collected field holds
    a map, [SanitizeMsg] panics after it has overwritten the values of the
    map: [Elem] of line 193 is called on a struct. *)
Theorem SanitizeMsg_by_value_panics_after_redaction
    (Sprintf_v : iface -> heap -> string) (md : DescriptorProto) (st : gostruct)
    (h : heap) (l : loc) :
  collected_value (Message md (ByValue st)) h = Some (VMap (Some l)) ->
  SanitizeMsg Sprintf_v (Message md (ByValue st)) h = Panics (redacted l h).
Proof.
  intros Hv. rewrite SanitizeMsg_unfold. simpl in *.
  destruct (collect (GetField md) []) as [|f fs]; [discriminate|]. simpl in Hv.
  by rewrite Hv, redact_spec.
Qed.

Lemma SanitizeMsg_by_value_panics_after_redaction_witness :
  SanitizeMsg Text.CompactTextString
    (Message Examples.publish_schema (ByValue Examples.publish_struct)) Examples.publish_store
  = Panics (redacted 2%positive Examples.publish_store).
Proof.
  apply SanitizeMsg_by_value_panics_after_redaction. reflexivity.
Defined.

(* ===================================================================== *)
(** ** Further properties of getCredentialsFromSecret *)
(* ===================================================================== *)

(** X7: the conversion of line 55 loses nothing.  When the secret is found,
    the bytes of the strings in the map that is returned are the bytes of
    [secret.Data], also where they are not well-formed UTF-8. *)
Theorem getCredentialsFromSecret_keeps_bytes
    (error : Type) (Get : string -> string -> Credentials.Secret + error)
    (ref : Credentials.SecretReference) (secret : Credentials.Secret) :
  Get (Credentials.Namespace ref) (Credentials.Name ref) = inl secret ->
  exists credentials : gmap string string,
    Credentials.getCredentialsFromSecret error Get (Some ref) = Some (Some credentials, None) /\
    list_byte_of_string <$> credentials = Credentials.Data secret.
Proof.
  intros HGet. unfold Credentials.getCredentialsFromSecret. rewrite HGet.
  eexists. split; [reflexivity|].
  rewrite CredentialsFacts.foldl_store_entry_fmap.
  apply map_eq; intros key. rewrite !lookup_fmap.
  destruct (Credentials.Data secret !! key) as [value|]; [|reflexivity].
  simpl. by rewrite list_byte_of_string_of_list_byte.
Qed.

Lemma getCredentialsFromSecret_keeps_bytes_witness :
  let secret := {| Credentials.Data := {[ "token" := [Byte.xff; Byte.x00; Byte.x41] ]} |} in
  exists credentials : gmap string string,
    Credentials.getCredentialsFromSecret string (fun _ _ => inl secret)
      (Some {| Credentials.Name := "db"; Credentials.Namespace := "default" |})
    = Some (Some credentials, None) /\
    list_byte_of_string <$> credentials = Credentials.Data secret.
Proof.
  apply (getCredentialsFromSecret_keeps_bytes string (fun _ _ => inl _)
           {| Credentials.Name := "db"; Credentials.Namespace := "default" |}).
  reflexivity.
Defined.

(* ===================================================================== *)
(** ** Further facts about path.Join *)
(* ===================================================================== *)

Module JoinFacts.

Import Path StringFacts PathFacts.
Local Open Scope char_scope.
Local Open Scope list_scope.

(** A slash at the end of the first element of a path does not count. *)
Lemma Join_trailing_slash (dir e : string) :
  dir <> EmptyString -> Join [(dir ++ "/")%string; e] = Join [dir; e].
Proof.
  intros Hd. destruct dir as [|c dir]; [done|].
  rewrite append_cons. cbn [Join join_slash]. rewrite <- append_cons.
  set (Y := String c dir).
  assert (list_ascii_of_string Y <> []) as HY by done.
  assert (forall X, Clean (Y ++ X)%string
            = if (length (out (clean_state (list_ascii_of_string (Y ++ X)%string))) =? 0)%nat
              then "."%string
              else string_of_list_ascii
                     (rev (out (clean_state (list_ascii_of_string (Y ++ X)%string))))) as HC.
  { intros X. unfold Y. rewrite append_cons. reflexivity. }
  rewrite append_assoc, !HC.
  rewrite !list_ascii_of_string_app.
  change (list_ascii_of_string "/") with ["/"].
  change (["/"] ++ ["/"] ++ list_ascii_of_string e) with ("/" :: "/" :: list_ascii_of_string e).
  change (["/"] ++ list_ascii_of_string e) with ("/" :: list_ascii_of_string e).
  rewrite (clean_state_slash _ ("/" :: _)) by exact HY.
  rewrite (clean_state_slash _ (list_ascii_of_string e)) by exact HY.
  reflexivity.
Qed.

Lemma append_inj_r (p s1 s2 : string) : (p ++ s1 = p ++ s2)%string -> s1 = s2.
Proof.
  induction p as [|c p IH]; [done|]. rewrite !append_cons. intros [= H]. by apply IH.
Qed.

Lemma append_not_short (s t : string) (c1 c2 : ascii) :
  (s ++ String c1 (String c2 t))%string <> "."%string /\
  (s ++ String c1 (String c2 t))%string <> "/"%string.
Proof.
  destruct s as [|a [|b s]]; split; rewrite ?append_cons; try discriminate.
Qed.

(** The text [path.Clean] puts before a child of a directory that is
    neither the current directory nor the root. *)
Lemma child_prefix_dir (Y : string) :
  Y <> EmptyString -> Clean Y <> "."%string -> Clean Y <> "/"%string ->
  child_prefix Y = (Clean Y ++ "/")%string.
Proof.
  intros HY Hdot Hroot.
  by destruct (child_prefix_cases Y HY) as [ [_ ?] | [ [_ ?] | ? ] ].
Qed.

(** Two plain elements joined to a directory that is neither the current
    directory nor the root. *)
Lemma Join_grandchild (a b e : string) :
  Clean a <> "."%string -> Clean a <> "/"%string ->
  plain (list_ascii_of_string b) -> plain (list_ascii_of_string e) ->
  Join [a; b; e] = (Clean a ++ "/" ++ b ++ "/" ++ e)%string.
Proof.
  intros Hdot Hroot Hb He.
  assert (a <> EmptyString) as Ha by (intros ->; by apply Hdot).
  assert (b <> EmptyString) as Hbe by (intros ->; exact Hb).
  rewrite Join_child by exact He. unfold dir_prefix.
  destruct a as [|ca a]; [done|]. cbn [joined].
  set (a' := String ca a) in *.
  assert ((a' ++ "/" ++ b)%string <> EmptyString) as HY by done.
  assert (Clean (a' ++ "/" ++ b)%string = (Clean a' ++ "/" ++ b)%string) as HC.
  { rewrite Clean_child by done. rewrite child_prefix_dir by done.
    by rewrite append_assoc. }
  destruct (a' ++ "/" ++ b)%string as [|cy Y] eqn:EY; [done|].
  rewrite child_prefix_dir; [| done | |].
  - rewrite HC. by rewrite !append_assoc.
  - rewrite HC. destruct b as [|cb b]; [done|].
    change ("/" ++ String cb b)%string with (String "/" (String cb b)).
    apply append_not_short.
  - rewrite HC. destruct b as [|cb b]; [done|].
    change ("/" ++ String cb b)%string with (String "/" (String cb b)).
    apply append_not_short.
Qed.

End JoinFacts.

(* ===================================================================== *)
(** ** Facts about a volume data file that is cut short or has more in it *)
(* ===================================================================== *)

Module TruncationFacts.

Import Json Truncation StringFacts JsonFacts.

Lemma run_app st A B : run st (A ++ B) = run (run st A) B.
Proof.
  revert st. induction A as [|c A IH]; intros st; [reflexivity|].
  rewrite append_cons. apply IH.
Qed.

Lemma done_before_app st A B :
  done_before st (A ++ B) = done_before st A || done_before (run st A) B.
Proof.
  revert st. induction A as [|c A IH]; intros st; [reflexivity|].
  rewrite append_cons. cbn [done_before run]. by rewrite IH, orb_assoc.
Qed.

Lemma segment_app st A st' B st'' :
  segment st A st' -> segment st' B st'' -> segment st (A ++ B) st''.
Proof.
  intros [HA HdA] [HB HdB]. split.
  - by rewrite run_app, HA.
  - by rewrite done_before_app, HdA, HA.
Qed.

Lemma segment_char st c : is_done st = false -> segment st (String c EmptyString) (step st c).
Proof. intros Hst. split; [reflexivity|]. simpl. by rewrite Hst. Qed.

Lemma segment_nil st : segment st EmptyString st.
Proof. by split. Qed.

(** Inside a key the decoder has not read a whole value. *)
Lemma segment_key s : forall raw esc esc' m,
  scan esc s = Some esc' -> segment (SKey raw esc m) s (SKey (raw ++ s) esc' m).
Proof.
  intros raw esc esc' m Hs. split.
  - rewrite <- (append_nil_r s) at 1. by rewrite (run_key_scan _ _ _ _ _ _ Hs).
  - revert raw esc Hs. induction s as [|c s IH]; intros raw esc Hs; [reflexivity|].
    cbn [done_before is_done step scan orb] in *.
    destruct esc; [by apply IH|].
    destruct (Ascii.eqb c backslash); [by apply IH|].
    destruct (Ascii.eqb c quote); [discriminate | by apply IH].
Qed.

(** Inside a value literal as well. *)
Lemma segment_str s : forall key raw esc esc' m,
  scan esc s = Some esc' -> segment (SStr key raw esc m) s (SStr key (raw ++ s) esc' m).
Proof.
  intros key raw esc esc' m Hs. split.
  - rewrite <- (append_nil_r s) at 1. by rewrite (run_str_scan _ _ _ _ _ _ _ Hs).
  - revert raw esc Hs. induction s as [|c s IH]; intros raw esc Hs; [reflexivity|].
    cbn [done_before is_done step scan orb] in *.
    destruct esc; [by apply IH|].
    destruct (Ascii.eqb c backslash); [by apply IH|].
    destruct (Ascii.eqb c quote); [discriminate | by apply IH].
Qed.

Lemma encode_string_parts s :
  encode_string s = String quote EmptyString ++ encode_bytes 0 true s ++ String quote EmptyString.
Proof. reflexivity. Qed.

(** Reading a key literal. *)
Lemma segment_key_literal st m key :
  expects_key st m -> ValidString key = true ->
  segment st (encode_string key) (SColon key m).
Proof.
  intros Hst Hv. rewrite encode_string_parts.
  apply (segment_app _ _ (SKey EmptyString false m)).
  { destruct Hst as [-> | ->]; by apply segment_char. }
  apply (segment_app _ _ (SKey (encode_bytes 0 true key) false m)).
  { apply (segment_key _ EmptyString false false), scan_encode, Hv. }
  replace (SColon key m) with (step (SKey (encode_bytes 0 true key) false m) quote).
  { by apply segment_char. }
  cbn [step]. change (Ascii.eqb quote backslash) with false.
  change (Ascii.eqb quote quote) with true. cbv iota.
  by rewrite unquote_encode_string.
Qed.

(** Reading a value literal. *)
Lemma segment_value_literal m key value :
  ValidString value = true ->
  segment (SValue key m) (encode_string value) (SNext (<[key := value]> m)).
Proof.
  intros Hv. rewrite encode_string_parts.
  apply (segment_app _ _ (SStr key EmptyString false m)).
  { by apply segment_char. }
  apply (segment_app _ _ (SStr key (encode_bytes 0 true value) false m)).
  { apply (segment_str _ key EmptyString false false), scan_encode, Hv. }
  replace (SNext (<[key := value]> m))
    with (step (SStr key (encode_bytes 0 true value) false m) quote).
  { by apply segment_char. }
  cbn [step]. change (Ascii.eqb quote backslash) with false.
  change (Ascii.eqb quote quote) with true. cbv iota.
  by rewrite unquote_encode_string.
Qed.

Lemma segment_member st m kv :
  expects_key st m -> valid_entry kv ->
  segment st (encode_member kv) (SNext (insert_entry m kv)).
Proof.
  intros Hst [Hk Hv]. unfold encode_member.
  apply (segment_app _ _ (SColon kv.1 m)); [by apply segment_key_literal|].
  apply (segment_app _ _ (SValue kv.1 m)); [by apply segment_char|].
  by apply segment_value_literal.
Qed.

Lemma segment_members entries : forall st m,
  entries <> [] -> expects_key st m -> Forall valid_entry entries ->
  segment st (encode_members entries) (SNext (foldl insert_entry m entries)).
Proof.
  induction entries as [|kv rest IH]; intros st m Hne Hst Hv; [done|].
  apply Forall_cons in Hv as [Hkv Hv]. rewrite encode_members_cons.
  apply (segment_app _ _ (SNext (insert_entry m kv))); [by apply segment_member|].
  destruct rest as [|kv' rest]; [apply segment_nil|].
  cbn [foldl].
  apply (segment_app _ (String "," EmptyString) (SComma (insert_entry m kv)));
    [by apply segment_char|].
  apply IH; [done | by right | exact Hv].
Qed.

(** Reading what [Marshal] wrote for a map of well-formed strings: the
    decoder has read the value at the last byte and not before. *)
Lemma segment_Marshal (data : gomap) :
  valid_map data -> segment SBegin (Marshal data) (SDone data).
Proof.
  intros Hv. destruct data as [m|]; [|by split].
  unfold Marshal.
  set (entries := merge_sort GoStrings.key_le (map_to_list m)).
  assert (entries ≡ₚ map_to_list m) as Hp by apply merge_sort_Permutation.
  assert (Forall valid_entry entries) as Hall.
  { apply Forall_forall. intros [k v] Hin. rewrite Hp in Hin.
    apply elem_of_map_to_list in Hin. by apply Hv. }
  apply (segment_app _ (String "{" EmptyString) (SOpen ∅)); [by apply segment_char|].
  destruct entries as [|kv rest] eqn:E.
  - apply Permutation_nil_l in Hp. symmetry in Hp.
    apply map_to_list_empty_iff in Hp as ->. by split.
  - apply (segment_app _ _ (SNext m)).
    + rewrite <- (foldl_insert_entry_map m (kv :: rest) Hp).
      apply segment_members; [done | by left | exact Hall].
    + by apply segment_char.
Qed.

(** When a whole value is not read before the end of a text, it is not read
    in a text that was cut short. *)
Lemma cut_short_not_done text : forall st n,
  done_before st text = false -> (n < String.length text)%nat ->
  is_done (run st (String.substring 0 n text)) = false.
Proof.
  induction text as [|c text IH]; intros st n Hd Hn; [simpl in Hn; lia|].
  cbn [done_before] in Hd. apply orb_false_elim in Hd as [Hst Hd].
  destruct n as [|n]; [exact Hst|].
  cbn [String.substring run]. apply IH; [exact Hd | simpl in Hn; lia].
Qed.

Lemma substring_app (A B : string) (n : nat) :
  (n <= String.length A)%nat -> String.substring 0 n (A ++ B) = String.substring 0 n A.
Proof.
  revert n. induction A as [|c A IH]; intros n Hn.
  - simpl in Hn. assert (n = 0%nat) as -> by lia. by destruct B.
  - destruct n as [|n]; [reflexivity|]. rewrite append_cons. cbn [String.substring].
    f_equal. apply IH. simpl in Hn. lia.
Qed.

Lemma substring_all (A : string) : String.substring 0 (String.length A) A = A.
Proof. induction A as [|c A IH]; [reflexivity|]. simpl. by rewrite IH. Qed.

Lemma length_append (A B : string) :
  String.length (A ++ B) = (String.length A + String.length B)%nat.
Proof. induction A as [|c A IH]; [reflexivity|]. rewrite append_cons. simpl. by rewrite IH. Qed.

Lemma Decode_not_done text : is_done (run SBegin text) = false -> Decode text = None.
Proof. unfold Decode. by destruct (run SBegin text). Qed.

(** What [Decode] makes of the first [n] bytes of an encoded map, when not
    all of them are there: the map when only the final newline is missing,
    and an error otherwise. *)
Lemma Decode_cut_short (data : gomap) (n : nat) :
  valid_map data -> (n < String.length (Encode data))%nat ->
  Decode (String.substring 0 n (Encode data))
  = if (String.length (Marshal data) <=? n)%nat then Some data else None.
Proof.
  intros Hv Hn. destruct (segment_Marshal data Hv) as [Hrun Hd].
  unfold Encode in *. rewrite length_append in Hn. simpl in Hn.
  rewrite substring_app by lia.
  destruct (String.length (Marshal data) <=? n)%nat eqn:E.
  - apply Nat.leb_le in E. assert (n = String.length (Marshal data)) as -> by lia.
    rewrite substring_all. unfold Decode. by rewrite Hrun.
  - apply Nat.leb_gt in E. by apply Decode_not_done, cut_short_not_done.
Qed.

(** The decoder stops at the end of the first value. *)
Lemma Decode_Encode_app (data : gomap) (rest : string) :
  valid_map data -> Decode (Encode data ++ rest) = Some data.
Proof.
  intros Hv. destruct (segment_Marshal data Hv) as [Hrun _].
  unfold Decode, Encode. by rewrite append_assoc, run_app, Hrun, run_done.
Qed.

Lemma step_in_object st c : in_object st = true -> in_object (step st c) = true.
Proof.
  destruct st as [|rem|m|raw esc m|key m|key m|key raw esc m|rem key m|m|m|[r|]|];
    try discriminate; intros _; cbn [step];
    repeat match goal with
           | |- context [if ?b then _ else _] => destruct b
           | |- context [match ?x with _ => _ end] => destruct x
           end; reflexivity.
Qed.

Lemma run_in_object input : forall st, in_object st = true -> in_object (run st input) = true.
Proof.
  induction input as [|c input IH]; intros st Hst; [exact Hst|].
  cbn [run]. by apply IH, step_in_object.
Qed.

Lemma run_error input : run SError input = SError.
Proof. induction input as [|c input IH]; [reflexivity | exact IH]. Qed.

Lemma run_null_rest input :
  run (STopNull "ull") input = SDone None -> exists rest, input = "ull" ++ rest.
Proof.
  destruct input as [|c1 input]; [discriminate|]. cbn [run step].
  destruct (Ascii.eqb c1 "u") eqn:E1; [|by rewrite run_error].
  destruct input as [|c2 input]; [discriminate|]. cbn [run step].
  destruct (Ascii.eqb c2 "l") eqn:E2; [|by rewrite run_error].
  destruct input as [|c3 input]; [discriminate|]. cbn [run step].
  destruct (Ascii.eqb c3 "l") eqn:E3; [|by rewrite run_error].
  apply Ascii.eqb_eq in E1, E2, E3. subst. intros _. by exists input.
Qed.

(** [Decode] makes the map nil exactly when the value it reads is [null]. *)
Lemma Decode_nil input :
  Decode input = Some None <->
  exists ws rest, input = ws ++ "null" ++ rest /\ spaces ws = true.
Proof.
  unfold Decode. split.
  - induction input as [|c input IH]; [discriminate|]. cbn [run step].
    destruct (isSpace c) eqn:Es.
    { intros H. destruct (IH H) as (ws & rest & -> & Hws).
      exists (String c ws), rest. split; [reflexivity|]. simpl. by rewrite Es. }
    destruct (Ascii.eqb c "{") eqn:Eb.
    { intros H. pose proof (run_in_object input (SOpen ∅) eq_refl) as Hin.
      destruct (run (SOpen ∅) input) as [| | | | | | | | | |[r|]|]; try discriminate. }
    destruct (Ascii.eqb c "n") eqn:En.
    { apply Ascii.eqb_eq in En as ->. intros H.
      destruct (run (STopNull "ull") input) as [| | | | | | | | | |[r|]|] eqn:E; try discriminate.
      apply run_null_rest in E as [rest ->]. by exists EmptyString, rest. }
    by rewrite run_error.
  - intros (ws & rest & -> & Hws).
    induction ws as [|c ws IH].
    + rewrite append_nil_l.
      change (run SBegin ("null" ++ rest)) with (run (SDone None) rest).
      by rewrite run_done.
    + simpl in Hws. apply andb_prop in Hws as [Hc Hws]. rewrite append_cons. cbn [run step].
      rewrite Hc. by apply IH.
Qed.

End TruncationFacts.

(* ===================================================================== *)
(** ** Further properties of saveVolumeData and loadVolumeData *)
(* ===================================================================== *)

(** X8: [saveVolumeData] writes to one file only.  In a file system where
    different paths name different files, what [loadVolumeData] returns for
    a directory and a file name that [path.Join] does not make the path of
    the saved file is what it returned before the call, whether the call
    succeeds or fails. *)
Theorem saveVolumeData_keeps_other_files
    (dir fileName : string) (data : gomap) (fs : OS.filesystem) (dir' fileName' : string) :
  Path.Join [dir'; fileName'] <> Path.Join [dir; fileName] ->
  loadVolumeData dir' fileName' (saveVolumeData dir fileName data fs).2
  = loadVolumeData dir' fileName' fs.
Proof.
  intros Hne. unfold saveVolumeData, loadVolumeData, OS.Create, OS.Write, OS.Open.
  destruct (OS.creatable fs (Path.Join [dir; fileName])); [|reflexivity].
  cbn [OS.room].
  destruct (String.length (Json.Encode data) <=? OS.room fs)%nat; cbn [snd OS.files];
    rewrite lookup_insert_ne by congruence; by rewrite lookup_insert_ne by congruence.
Qed.

Lemma saveVolumeData_keeps_other_files_witness :
  loadVolumeData "/var/lib/kubelet/plugins/pv-2" "vol_data.json"
    (saveVolumeData "/var/lib/kubelet/plugins/pv-1" "vol_data.json"
       (Some {[ "driverName" := "csi.example.com" ]}) scratch_disk).2
  = loadVolumeData "/var/lib/kubelet/plugins/pv-2" "vol_data.json" scratch_disk.
Proof.
  apply saveVolumeData_keeps_other_files. vm_compute. discriminate.
Defined.

(** X9: a slash at the end of a directory name that is not empty makes no
    difference to [saveVolumeData] and [loadVolumeData]. *)
Theorem volume_data_dir_trailing_slash
    (dir fileName : string) (data : gomap) (fs : OS.filesystem) :
  dir <> "" ->
  saveVolumeData (dir ++ "/") fileName data fs = saveVolumeData dir fileName data fs /\
  loadVolumeData (dir ++ "/") fileName fs = loadVolumeData dir fileName fs.
Proof.
  intros Hd. unfold saveVolumeData, loadVolumeData.
  by rewrite JoinFacts.Join_trailing_slash.
Qed.

Lemma volume_data_dir_trailing_slash_witness :
  saveVolumeData ("/var/lib/kubelet/plugins/pv-1" ++ "/") "vol_data.json"
    (Some {[ "driverName" := "csi.example.com" ]}) scratch_disk
  = saveVolumeData "/var/lib/kubelet/plugins/pv-1" "vol_data.json"
      (Some {[ "driverName" := "csi.example.com" ]}) scratch_disk /\
  loadVolumeData ("/var/lib/kubelet/plugins/pv-1" ++ "/") "vol_data.json" scratch_disk
  = loadVolumeData "/var/lib/kubelet/plugins/pv-1" "vol_data.json" scratch_disk.
Proof.
  apply volume_data_dir_trailing_slash. discriminate.
Defined.

(** X10: a save that fails in the middle of the write is never loaded as
    another map.  When [saveVolumeData] of a map of well-formed strings
    fails with a short write, [loadVolumeData] of the file it left fails to
    parse, unless only the final newline is missing, in which case it
    returns the map that was saved. *)
Theorem loadVolumeData_after_short_write
    (dir fileName : string) (data : gomap) (fs fs' : OS.filesystem) :
  Json.valid_mapb data = true ->
  saveVolumeData dir fileName data fs = (Some OS.ShortWrite, fs') ->
  loadVolumeData dir fileName fs'
  = if (String.length (Json.Marshal data) <=? OS.room fs)%nat
    then (data, None)
    else (None, Some OS.DecodeError).
Proof.
  intros Hv%JsonFacts.valid_mapb_valid_map. unfold saveVolumeData, loadVolumeData.
  set (name := Path.Join [dir; fileName]).
  unfold OS.Create, OS.Write, OS.Open.
  destruct (OS.creatable fs name); [|discriminate]. cbn [OS.room].
  destruct (String.length (Json.Encode data) <=? OS.room fs)%nat eqn:E; [discriminate|].
  intros [= <-]. cbn [OS.files]. rewrite lookup_insert_eq.
  apply Nat.leb_gt in E. rewrite TruncationFacts.Decode_cut_short by done.
  by destruct (String.length (Json.Marshal data) <=? OS.room fs)%nat.
Qed.

Lemma loadVolumeData_after_short_write_witness :
  loadVolumeData "/var/lib/kubelet/plugins/pv-1" "vol_data.json"
    (saveVolumeData "/var/lib/kubelet/plugins/pv-1" "vol_data.json"
       (Some {[ "driverName" := "csi.example.com" ]}) small_disk).2
  = if (String.length (Json.Marshal (Some {[ "driverName" := "csi.example.com" ]}))
        <=? OS.room small_disk)%nat
    then (Some {[ "driverName" := "csi.example.com" ]}, None)
    else (None, Some OS.DecodeError).
Proof.
  apply (loadVolumeData_after_short_write _ _ _ small_disk).
  - vm_compute. reflexivity.
  - vm_compute. reflexivity.
Defined.

(** X11: [loadVolumeData] reads one value and does not look at what
    follows it.  From a file that holds the encoding of a map of
    well-formed strings followed by any bytes, it returns the map and no
    error. *)
Theorem loadVolumeData_ignores_trailing_bytes
    (dir fileName : string) (data : gomap) (rest : string) (fs : OS.filesystem) :
  Json.valid_mapb data = true ->
  OS.files fs !! Path.Join [dir; fileName] = Some (Json.Encode data ++ rest) ->
  loadVolumeData dir fileName fs = (data, None).
Proof.
  intros Hv%JsonFacts.valid_mapb_valid_map Hf. unfold loadVolumeData, OS.Open.
  by rewrite Hf, TruncationFacts.Decode_Encode_app.
Qed.

Lemma loadVolumeData_ignores_trailing_bytes_witness :
  loadVolumeData "/data" "vol_data.json"
    {| OS.files :=
         {[ "/data/vol_data.json" :=
              Json.Encode (Some {[ "driverName" := "csi.example.com" ]}) ++ "}}garbage" ]};
       OS.creatable := fun _ => true; OS.room := 4096 |}
  = (Some {[ "driverName" := "csi.example.com" ]}, None).
Proof.
  apply (loadVolumeData_ignores_trailing_bytes _ _ _ "}}garbage").
  - vm_compute. reflexivity.
  - vm_compute. reflexivity.
Defined.

(** X12: [loadVolumeData] returns the nil map without an error exactly when
    the file exists and the first value in it, after white space, is
    [null]. *)
Theorem loadVolumeData_nil_without_error (dir fileName : string) (fs : OS.filesystem) :
  loadVolumeData dir fileName fs = (None, None) <->
  exists ws rest,
    OS.files fs !! Path.Join [dir; fileName] = Some (ws ++ "null" ++ rest) /\
    Truncation.spaces ws = true.
Proof.
  unfold loadVolumeData, OS.Open.
  destruct (OS.files fs !! Path.Join [dir; fileName]) as [content|].
  - transitivity (Json.Decode content = Some None).
    + destruct (Json.Decode content) as [[m|]|]; split; done.
    + rewrite TruncationFacts.Decode_nil. split.
      * intros (ws & rest & -> & Hws). by exists ws, rest.
      * intros (ws & rest & [= ->] & Hws). by exists ws, rest.
  - split; [discriminate | by intros (ws & rest & ? & _)].
Qed.

(** X21: a later save replaces an earlier one entirely.  Saving a map
    after another save to the same file returns the error and leaves the
    file system that it returns and leaves without the earlier save,
    whether the earlier save succeeded or failed. *)
Theorem saveVolumeData_overwrites
    (dir fileName : string) (data1 data2 : gomap) (fs : OS.filesystem) :
  saveVolumeData dir fileName data2 (saveVolumeData dir fileName data1 fs).2
  = saveVolumeData dir fileName data2 fs.
Proof.
  unfold saveVolumeData, OS.Create, OS.Write.
  set (name := Path.Join [dir; fileName]).
  destruct (OS.creatable fs name) eqn:Ec; cbn [snd]; [|by rewrite Ec].
  cbn [OS.room OS.files OS.creatable].
  destruct (String.length (Json.Encode data1) <=? OS.room fs)%nat;
    cbn [snd OS.room OS.files OS.creatable]; rewrite Ec;
    cbn [snd OS.room OS.files OS.creatable];
    destruct (String.length (Json.Encode data2) <=? OS.room fs)%nat;
    rewrite !insert_insert_eq; reflexivity.
Qed.

(* ===================================================================== *)
(** ** Further properties of the directories of a block volume *)
(* ===================================================================== *)

(** X13: for every volume and host, the directory of the device and the
    directory of the volume data are different paths. *)
Theorem volume_device_dirs_differ
    {H : Type} `{VolumeHost H} (csiPluginName : string)
    (EscapeQualifiedNameForDisk : string -> string)
    (specVolID : string) (host : H) :
  getVolumeDevicePluginDir csiPluginName EscapeQualifiedNameForDisk specVolID host
  <> getVolumeDeviceDataDir csiPluginName EscapeQualifiedNameForDisk specVolID host.
Proof.
  unfold getVolumeDevicePluginDir, getVolumeDeviceDataDir.
  rewrite (PathFacts.Join_child _ _ "dev") by apply PathFacts.plain_dev.
  rewrite (PathFacts.Join_child _ _ "data") by apply PathFacts.plain_data.
  by intros ?%JoinFacts.append_inj_r.
Qed.

(** X14: the layout of the comments of lines 125 and 133.  When the escaped
    volume identifier is a plain path element (not empty, without a slash
    and not starting with a dot) and the cleaned directory of the host is
    neither the current directory nor the root, the two functions return
    that directory, the identifier and [dev] or [data], separated by
    slashes. *)
Theorem volume_device_dirs_layout
    {H : Type} `{VolumeHost H} (csiPluginName : string)
    (EscapeQualifiedNameForDisk : string -> string)
    (specVolID : string) (host : H) :
  let root := Path.Clean (GetVolumeDevicePluginDir host csiPluginName) in
  let id := EscapeQualifiedNameForDisk specVolID in
  root <> "." -> root <> "/" -> Path.plain (list_ascii_of_string id) ->
  getVolumeDevicePluginDir csiPluginName EscapeQualifiedNameForDisk specVolID host
    = root ++ "/" ++ id ++ "/dev" /\
  getVolumeDeviceDataDir csiPluginName EscapeQualifiedNameForDisk specVolID host
    = root ++ "/" ++ id ++ "/data".
Proof.
  cbv zeta. intros Hdot Hroot Hid. unfold getVolumeDevicePluginDir, getVolumeDeviceDataDir.
  split; apply JoinFacts.Join_grandchild; try done.
  - apply PathFacts.plain_dev.
  - apply PathFacts.plain_data.
Qed.

Lemma volume_device_dirs_layout_witness :
  getVolumeDevicePluginDir (H0 := kubelet_host) "kubernetes.io/csi" (fun s => s)
    "pv-1" "/var/lib/kubelet/"
    = Path.Clean "/var/lib/kubelet//plugins/kubernetes.io/csi/volumeDevices"
      ++ "/" ++ "pv-1" ++ "/dev" /\
  getVolumeDeviceDataDir (H0 := kubelet_host) "kubernetes.io/csi" (fun s => s)
    "pv-1" "/var/lib/kubelet/"
    = Path.Clean "/var/lib/kubelet//plugins/kubernetes.io/csi/volumeDevices"
      ++ "/" ++ "pv-1" ++ "/data".
Proof.
  apply (volume_device_dirs_layout (H0 := kubelet_host) "kubernetes.io/csi" (fun s => s)
           "pv-1" "/var/lib/kubelet/").
  - vm_compute. discriminate.
  - vm_compute. discriminate.
  - split; [discriminate|]. repeat constructor; discriminate.
Defined.

(* ===================================================================== *)
(** ** Properties of getCSISourceFromSpec and getReadOnlyFromSpec *)
(* ===================================================================== *)

(** X15: [getCSISourceFromSpec] returns a source or an error, never both
    and never neither.  Without an error the source is the one of the
    persistent volume of the spec; with an error, which is then the one of
    line 106, the spec has no persistent volume or the volume has no CSI
    source. *)
Theorem getCSISourceFromSpec_source_or_error (spec : Volume.Spec) :
  exists (source : option Api.CSIPersistentVolumeSource) (err : option string),
    getCSISourceFromSpec (Some spec) = Some (source, err) /\
    (source = None <-> err <> None) /\
    (err = None ->
     exists pv, Volume.PersistentVolume spec = Some pv /\ Api.CSI (Api.Spec pv) = source) /\
    (err <> None ->
     err = Some source_not_defined /\
     forall pv, Volume.PersistentVolume spec = Some pv -> Api.CSI (Api.Spec pv) = None).
Proof.
  unfold getCSISourceFromSpec, csi_source.
  destruct (Volume.PersistentVolume spec) as [pv|].
  - destruct (Api.CSI (Api.Spec pv)) as [source|] eqn:E.
    + exists (Some source), None. repeat split; try done. intros _. by exists pv.
    + exists None, (Some source_not_defined). repeat split; try done.
      intros pv' [= <-]. exact E.
  - exists None, (Some source_not_defined). repeat split; done.
Qed.

(** X16: [getReadOnlyFromSpec] fails on the specs on which
    [getCSISourceFromSpec] fails, with the same error.  When it succeeds it
    returns the flag of the spec, not the one of the CSI source; when it
    fails it returns [false], whatever the flag of the spec. *)
Theorem getReadOnlyFromSpec_agrees_with_getCSISourceFromSpec (spec : Volume.Spec) :
  exists (readOnly : bool) (source : option Api.CSIPersistentVolumeSource) (err : option string),
    getReadOnlyFromSpec (Some spec) = Some (readOnly, err) /\
    getCSISourceFromSpec (Some spec) = Some (source, err) /\
    readOnly = match err with
               | None => Volume.ReadOnly spec
               | Some _ => false
               end.
Proof.
  unfold getReadOnlyFromSpec, getCSISourceFromSpec.
  destruct (csi_source spec) as [source|].
  - by exists (Volume.ReadOnly spec), (Some source), None.
  - by exists false, None, (Some source_not_defined).
Qed.

Example getReadOnlyFromSpec_example :
  getReadOnlyFromSpec (Some (csi_spec true)) = Some (true, None) /\
  getReadOnlyFromSpec (Some (inline_spec true)) = Some (false, Some source_not_defined) /\
  getCSISourceFromSpec (Some (inline_spec true)) = Some (None, Some source_not_defined).
Proof. repeat split. Qed.

(* ===================================================================== *)
(** ** Properties of hasReadWriteOnce *)
(* ===================================================================== *)

Lemma range_modes_elem (modes : list Api.PersistentVolumeAccessMode) :
  range_modes modes = true <-> Api.ReadWriteOnce ∈ modes.
Proof.
  induction modes as [|mode rest IH]; simpl.
  - split; [discriminate | by intros ?%elem_of_nil].
  - destruct (String.eqb mode Api.ReadWriteOnce) eqn:E.
    + apply String.eqb_eq in E as ->. split; [intros _; by left | done].
    + apply String.eqb_neq in E. rewrite IH, elem_of_cons. split; [by right|].
      by intros [?|?]; [congruence|].
Qed.

(** X17: [hasReadWriteOnce] is true exactly when the slice is not nil and
    [ReadWriteOnce] is one of its elements. *)
Theorem hasReadWriteOnce_contains (modes : option (list Api.PersistentVolumeAccessMode)) :
  hasReadWriteOnce modes = true <->
  exists l, modes = Some l /\ Api.ReadWriteOnce ∈ l.
Proof.
  destruct modes as [l|]; simpl.
  - rewrite range_modes_elem. split; [intros H; by exists l | by intros (l' & [= <-] & H)].
  - split; [discriminate | by intros (l' & ? & _)].
Qed.

(** X18: the result of [hasReadWriteOnce] depends on the modes that occur
    in the slice only, not on their order or on repetitions. *)
Theorem hasReadWriteOnce_same_modes (l1 l2 : list Api.PersistentVolumeAccessMode) :
  (forall mode, mode ∈ l1 <-> mode ∈ l2) ->
  hasReadWriteOnce (Some l1) = hasReadWriteOnce (Some l2).
Proof.
  intros Hl. simpl. apply eq_true_iff_eq. rewrite !range_modes_elem. apply Hl.
Qed.

Lemma hasReadWriteOnce_same_modes_witness :
  hasReadWriteOnce (Some [Api.ReadOnlyMany; Api.ReadWriteOnce])
  = hasReadWriteOnce (Some [Api.ReadWriteOnce; Api.ReadOnlyMany; Api.ReadWriteOnce]).
Proof.
  apply hasReadWriteOnce_same_modes. intros mode.
  rewrite !elem_of_cons. rewrite !elem_of_nil. tauto.
Defined.

(* ===================================================================== *)
(** ** Properties of log *)
(* ===================================================================== *)

Lemma doPrintf_literal operand verbs extra (s format : string) (a : list operand) :
  Fmt.literal s = true ->
  Fmt.doPrintf operand verbs extra (s ++ format) a
  = s ++ Fmt.doPrintf operand verbs extra format a.
Proof.
  induction s as [|c s IH]; [reflexivity|]. simpl. intros [Hc Hs]%andb_prop.
  rewrite StringFacts.append_cons. cbn [Fmt.doPrintf].
  apply negb_true_iff in Hc. rewrite Hc. f_equal. by apply IH.
Qed.

(** X19: when the name of the plugin has no [%] in it, what [log] returns
    starts with that name, a colon and a space, whatever the message and
    the operands. *)
Theorem log_prepends_plugin_name
    (operand : Type) (verbs : string -> list operand -> string)
    (extra : list operand -> string) (csiPluginName msg : string) (parts : list operand) :
  Fmt.literal csiPluginName = true ->
  exists text, log operand verbs extra csiPluginName msg parts = csiPluginName ++ ": " ++ text.
Proof.
  intros Hn. unfold log, Fmt.Sprintf. rewrite doPrintf_literal by exact Hn.
  rewrite (doPrintf_literal _ _ _ ": ") by reflexivity. by eexists.
Qed.

Lemma log_prepends_plugin_name_witness :
  exists text,
    log string (fun _ _ => "<verbs>") (fun _ => "<extra>") "kubernetes.io/csi"
      "saving volume data file [%s]" ["/data/vol_data.json"]
    = "kubernetes.io/csi" ++ ": " ++ text.
Proof.
  apply log_prepends_plugin_name. reflexivity.
Defined.

(** X20: when neither the name of the plugin nor the message has a [%] in
    it and there are no operands, [log] returns the name, a colon, a space
    and the message. *)
Theorem log_plain_message
    (operand : Type) (verbs : string -> list operand -> string)
    (extra : list operand -> string) (csiPluginName msg : string) :
  Fmt.literal csiPluginName = true -> Fmt.literal msg = true ->
  log operand verbs extra csiPluginName msg [] = csiPluginName ++ ": " ++ msg.
Proof.
  intros Hn Hm. unfold log, Fmt.Sprintf. rewrite doPrintf_literal by exact Hn.
  rewrite (doPrintf_literal _ _ _ ": ") by reflexivity.
  rewrite <- (StringFacts.append_nil_r msg) at 1. rewrite doPrintf_literal by exact Hm.
  simpl. by rewrite StringFacts.append_nil_r.
Qed.

Lemma log_plain_message_witness :
  log string (fun _ _ => "<verbs>") (fun _ => "<extra>") "kubernetes.io/csi"
    "volume data file saved" []
  = "kubernetes.io/csi" ++ ": " ++ "volume data file saved".
Proof.
  apply log_plain_message; reflexivity.
Defined.
